(** * The distributed-circuit transmission-line mode

    A shallow embedding of [skrf/media/distributedCircuit.py] (class
    [DistributedCircuit]) together with the properties its specification
    states about it.

    Numbers.  The Python code computes with numpy [float64]/[complex128]
    arrays.  The embedding idealises them as exact real and complex numbers
    (Stdlib [R], and pairs of reals): rounding and overflow are outside the
    model.  Where the specification says "within numerical tolerance", the
    theorems below prove exact equality in this arithmetic, and the
    refutations exhibit a difference of 2 between values of size 1.

    Where exact numbers stop short.  Two operations of numpy behave at
    isolated inputs in a way exact numbers cannot express, and the
    statements below stay clear of them:
    - a quotient with denominator exactly zero is [inf] or [nan] in numpy;
      [Cdiv] is meant for non-zero denominators only, and every statement
      that divides either proves the denominator non-zero or assumes it;
    - the square root of a negative real number is decided by the sign of
      the zero imaginary part of the radicand ([+0.0] or [-0.0]), which an
      exact zero does not carry; [csqrt] takes the side of [+0.0].  The
      statements about the exact layer that say which of the two roots of
      a negative real radicand is returned (the lossless line, the DC
      sample, the round trips) carry hypotheses under which the code
      computes that zero as [+0.0].  The section "Signed zeros" embeds
      the computation of [gamma] once more, one sample at a time, with
      numbers that carry the sign of zero, for the inputs where the zero
      is [-0.0].

    Values.  A [NumberLike] is a scalar or a one-dimensional array; real
    values are complex values with imaginary part zero, as under numpy's
    type promotion.  Binary operations follow numpy's broadcasting rule for
    one-dimensional operands.

    Two layers.  The value layer gives every method its meaning as a
    function on numbers and arrays.  The imperative layer gives the four
    derived properties their meaning as programs over a store of mutable
    arrays, with attribute reads, a fresh allocation for every arithmetic
    result and the in-place masked update of the degeneracy guard; its
    outcomes are proved to be those of the value layer.

    Names.  Definitions carry the names of the source.  The attributes
    [C], [L], [R], [G] and the properties [Z], [Y] are written [C'], [L'],
    [R'], [G'], [Z'], [Y'], with the prime of the class docstring, because
    [R] and [Z] name the number types. *)

From Stdlib Require Import Reals Lra Psatz.
From stdpp Require Import gmap list strings.

Local Open Scope R_scope.

(** ** Complex numbers *)

Record complex : Type := mkC { re : R; im : R }.

Definition RtoC (x : R) : complex := mkC x 0.
Definition Ci : complex := mkC 0 1.

Definition Cadd (a b : complex) : complex :=
  mkC (re a + re b) (im a + im b).
Definition Cmul (a b : complex) : complex :=
  mkC (re a * re b - im a * im b) (re a * im b + im a * re b).
Definition Cnorm2 (a : complex) : R := re a * re a + im a * im a.

(** The quotient of complex numbers, for a non-zero denominator.  (At
    [b = 0] numpy returns [inf] or [nan] with a warning; the term below is
    then [0], which stands for nothing in the code: no statement relies on
    it.) *)
Definition Cdiv (a b : complex) : complex :=
  mkC ((re a * re b + im a * im b) / Cnorm2 b)
      ((im a * re b - re a * im b) / Cnorm2 b).
Definition Cmod (a : complex) : R := sqrt (Cnorm2 a).

(** numpy's [sqrt] on complex input: the principal square root, with the
    branch cut along the negative real axis.  On the cut itself, that is
    for a negative real radicand [-x], numpy continues the function from
    the side named by the sign of the zero imaginary part: [sqrt(-x+0.0j)]
    is [+j sqrt(x)] and [sqrt(-x-0.0j)] is [-j sqrt(x)].  The definition
    below is the first of the two; the second is [csqrt_ieee] of the
    section "Signed zeros". *)
Definition csqrt (z : complex) : complex :=
  mkC (sqrt ((Cmod z + re z) / 2))
      ((if Rlt_dec (im z) 0 then -1 else 1) * sqrt ((Cmod z - re z) / 2)).

(** The principal half-plane: non-negative real part, and a non-negative
    imaginary part where the real part vanishes. *)
Definition principal (z : complex) : Prop :=
  0 <= re z /\ (re z = 0 -> 0 <= im z).

(** ** Exceptions *)

Inductive exn : Type := AttributeError | ValueError | TypeError | IndexError.

Inductive result (A : Type) : Type :=
  | Ok (a : A)
  | Raise (e : exn).
Arguments Ok {A} a.
Arguments Raise {A} e.

#[global] Instance result_ret : MRet result := @Ok.
#[global] Instance result_bind : MBind result := fun A B f m =>
  match m with
  | Ok a => f a
  | Raise e => Raise e
  end.

(** [try: a except TypeError: b] *)
Definition try_except_TypeError {A} (a b : result A) : result A :=
  match a with
  | Raise TypeError => b
  | _ => a
  end.

(** ** NumberLike values and broadcasting *)

Inductive numlike : Type :=
  | Scalar (c : complex)
  | Vec (l : list complex).

Definition is_vec (x : numlike) : Prop :=
  match x with Vec _ => True | Scalar _ => False end.

(** The shape of a value: [None] for a scalar, the length for an array. *)
Definition shape (x : numlike) : option nat :=
  match x with Scalar _ => None | Vec l => Some (length l) end.

(** numpy's rule for an elementwise binary operation.  A scalar combines
    with anything; arrays of equal length combine sample by sample; an
    array of length one is stretched to the other's length; any other pair
    of arrays raises [ValueError] ("operands could not be broadcast
    together"). *)
Definition broadcast2 (f : complex -> complex -> complex)
    (x y : numlike) : result numlike :=
  match x, y with
  | Scalar a, Scalar b => Ok (Scalar (f a b))
  | Scalar a, Vec l => Ok (Vec (f a <$> l))
  | Vec l, Scalar b => Ok (Vec ((fun a => f a b) <$> l))
  | Vec l1, Vec l2 =>
      if Nat.eq_dec (length l1) (length l2) then Ok (Vec (zip_with f l1 l2))
      else match l1, l2 with
           | [a], _ => Ok (Vec (f a <$> l2))
           | _, [b] => Ok (Vec ((fun a => f a b) <$> l1))
           | _, _ => Raise ValueError
           end
  end.

Definition map1 (f : complex -> complex) (x : numlike) : numlike :=
  match x with
  | Scalar a => Scalar (f a)
  | Vec l => Vec (f <$> l)
  end.

Definition np_add := broadcast2 Cadd.
Definition np_mul := broadcast2 Cmul.
Definition np_div := broadcast2 Cdiv.
Definition np_real := map1 (fun z => RtoC (re z)).
Definition np_imag := map1 (fun z => RtoC (im z)).
Definition np_sqrt := map1 csqrt.

(** ** The degeneracy guard *)

(** The literal [1e-12] of the source. *)
Definition guard_eps : R := 1e-12.

(** One sample of [A[A.imag == 0] += 1j*1e-12]. *)
Definition nudge (z : complex) : complex :=
  if Req_dec_T (im z) 0 then Cadd z (Cmul Ci (RtoC guard_eps)) else z.

(** The masked in-place update needs item assignment: an array supports
    it, a scalar raises [TypeError]. *)
Definition guard (x : numlike) : result numlike :=
  match x with
  | Vec l => Ok (Vec (nudge <$> l))
  | Scalar _ => Raise TypeError
  end.

(** ** The frequency grid (external collaborator)

    Only what the class reads: the angular frequencies [w] and the fields
    used for rendering. *)
Record Frequency : Type := mkFrequency {
  w : list R;
  f_scaled : list R;
  unit : string;
  npoints : nat
}.

Definition w_array (f : Frequency) : numlike := Vec (RtoC <$> w f).

(** ** The mode: its attributes, as values *)

(** The attributes kept by the media base class. *)
Record MediaBase : Type := mkMediaBase {
  frequency : option Frequency;
  z0_port : option numlike;
  z0_override : option numlike
}.

Record Mode : Type := mkMode {
  base : MediaBase;
  C' : numlike;
  L' : numlike;
  R' : numlike;
  G' : numlike
}.

(** Modelled from the spec: [Media.__init__] of the media base class, which
    is not part of the source file.  It receives the frequency grid, the
    port impedance, the characteristic-impedance override and the legacy
    alias of the override, and keeps them on the object; the alias is
    folded in only when the canonical override is absent.  The grid is kept
    as supplied, so an absent grid stays absent until a derivation asks for
    it. *)
Definition Media_init (freq : option Frequency)
    (port override alias : option numlike) : MediaBase :=
  {| frequency := freq;
     z0_port := port;
     z0_override := match override with
                    | Some z => Some z
                    | None => alias
                    end |}.

(** The defaults of the keyword arguments of [__init__]. *)
Definition default_C : numlike := Scalar (RtoC 90e-12).
Definition default_L : numlike := Scalar (RtoC 280e-9).
Definition default_R : numlike := Scalar (RtoC 0).
Definition default_G : numlike := Scalar (RtoC 0).

(** [DistributedCircuit.__init__].  An omitted keyword is [None]; the last
    line assigns the four attributes the values received. *)
Definition __init__ (freq : option Frequency)
    (port override alias : option numlike)
    (C L R G : option numlike) : Mode :=
  {| base := Media_init freq port override alias;
     C' := default default_C C;
     L' := default default_L L;
     R' := default default_R R;
     G' := default default_G G |}.

(** [self.frequency.w]: attribute access on an absent grid raises. *)
Definition frequency_w (b : MediaBase) : result numlike :=
  match b.(frequency) with
  | Some f => Ok (w_array f)
  | None => Raise AttributeError
  end.

(** The expression [self.R + 1j*w*self.L], before the guard is applied. *)
Definition Z'_raw (self : Mode) : result numlike :=
  w ← frequency_w self.(base);
  jw ← np_mul (Scalar Ci) w;
  jwL ← np_mul jw self.(L');
  np_add self.(R') jwL.

(** Property [Z]. *)
Definition Z' (self : Mode) : result numlike :=
  Z ← Z'_raw self;
  guard Z.

(** The expression [self.G + 1j*w*self.C], before the guard is applied. *)
Definition Y'_raw (self : Mode) : result numlike :=
  w ← frequency_w self.(base);
  jw ← np_mul (Scalar Ci) w;
  jwC ← np_mul jw self.(C');
  np_add self.(G') jwC.

(** Property [Y]. *)
Definition Y' (self : Mode) : result numlike :=
  Y ← Y'_raw self;
  guard Y.

(** Property [z0_characteristic]: [sqrt(self.Z/self.Y)]. *)
Definition z0_characteristic (self : Mode) : result numlike :=
  Z ← Z' self;
  Y ← Y' self;
  q ← np_div Z Y;
  Ok (np_sqrt q).

(** Property [gamma]: [sqrt(self.Z*self.Y)]. *)
Definition gamma (self : Mode) : result numlike :=
  Z ← Z' self;
  Y ← Y' self;
  p ← np_mul Z Y;
  Ok (np_sqrt p).

(** ** The inverse constructor *)

(** What [from_media] reads of its argument, an existing media object: the
    grid, [gamma], [z0] and [z0_port]. *)
Record Media : Type := mkMedia {
  media_frequency : option Frequency;
  media_gamma : numlike;
  media_z0 : numlike;
  media_z0_port : option numlike
}.

(** Class method [from_media]. *)
Definition from_media (my_media : Media) : result Mode :=
  w ← match my_media.(media_frequency) with
      | Some f => Ok (w_array f)
      | None => Raise AttributeError
      end;
  let gamma := my_media.(media_gamma) in
  let z0 := my_media.(media_z0) in
  let z0_port := my_media.(media_z0_port) in
  Y ← np_div gamma z0;
  Z ← np_mul gamma z0;
  let G := np_real Y in
  C ← np_div (np_imag Y) w;
  let R := np_real Z in
  L ← np_div (np_imag Z) w;
  Ok (__init__ my_media.(media_frequency) z0_port None None
        (Some C) (Some L) (Some R) (Some G)).

(** ** Diagnostic rendering *)

Section Rendering.
(** Python's text forms of numbers are taken as given: [str_float] and
    [str_int] for a replacement field without a format specification,
    [fmt_2f] for the specification [.2f] applied to a scalar. *)
Variable str_float : R -> string.
Variable str_int : nat -> string.
Variable fmt_2f : complex -> string.

(** [f'{x:.2f}']: an array (or a list) does not accept the format
    specification and raises [TypeError]. *)
Definition format_2f (x : numlike) : result string :=
  match x with
  | Scalar c => Ok (fmt_2f c)
  | Vec _ => Raise TypeError
  end.

(** [f.f_scaled[0]] and [f.f_scaled[-1]]. *)
Definition first_scaled (f : Frequency) : result R :=
  match f_scaled f with
  | x :: _ => Ok x
  | [] => Raise IndexError
  end.
Definition last_scaled (f : Frequency) : result R :=
  match last (f_scaled f) with
  | Some x => Ok x
  | None => Raise IndexError
  end.

(** The first line of both forms. *)
Definition render_header (self : Mode) : result string :=
  f ← match self.(base).(frequency) with
      | Some f => Ok f
      | None => Raise AttributeError
      end;
  lo ← first_scaled f;
  hi ← last_scaled f;
  Ok ("Distributed Circuit Media.  " +:+ str_float lo +:+ "-"
        +:+ str_float hi +:+ " " +:+ unit f +:+ ".  "
        +:+ str_int (npoints f) +:+ " points").

(** The second line; [mark] is the text that follows each value: empty
    in the scalar form, [".."] in the fall-back form.  Both forms format
    the attributes themselves with [.2f]. *)
Definition render_params (mark : string) (self : Mode) : result string :=
  l ← format_2f self.(L');
  c ← format_2f self.(C');
  r ← format_2f self.(R');
  g ← format_2f self.(G');
  Ok ("L'= " +:+ l +:+ mark +:+ ", C'= " +:+ c +:+ mark +:+ ",R'= "
        +:+ r +:+ mark +:+ ", G'= " +:+ g +:+ mark +:+ ", ").

Definition render (mark : string) (self : Mode) : result string :=
  h ← render_header self;
  p ← render_params mark self;
  Ok (h +:+ String (Ascii.ascii_of_nat 10) p).

(** [__str__]. *)
Definition __str__ (self : Mode) : result string :=
  try_except_TypeError (render "" self) (render ".." self).

(** [__repr__]. *)
Definition __repr__ (self : Mode) : result string := __str__ self.
End Rendering.

(** ** The imperative layer: attributes, arrays and in-place update

    In Python the attributes of [self] are rebindable names, an [ndarray]
    is a mutable object reached through a reference, every arithmetic
    operation returns a newly allocated array, and
    [A[A.imag == 0] += 1j*1e-12] writes into the array [A] itself.  Here a
    value is an immutable number or the address of an array in a store,
    and the properties are programs in a state-and-exception monad. *)

Definition loc : Type := nat.

Inductive val : Type :=
  | VNum (c : complex)
  | VArr (p : loc).

Abbreviation store := (gmap loc (list complex)).

(** The attributes the derived properties read.  The grid comes with the
    address of the array that its [w] hands out; that array is treated as
    owned by the grid and shared with every reader. *)
Record Object : Type := mkObject {
  o_frequency : option (Frequency * loc);
  o_C : val;
  o_L : val;
  o_R : val;
  o_G : val
}.

Record state : Type := mkState {
  self : Object;
  mem : store
}.

Definition M (A : Type) : Type := state -> result A * state.

#[global] Instance M_ret : MRet M := fun A a s => (Ok a, s).
#[global] Instance M_bind : MBind M := fun A B f m s =>
  match m s with
  | (Ok a, s') => f a s'
  | (Raise e, s') => (Raise e, s')
  end.

Definition raise {A} (e : exn) : M A := fun s => (Raise e, s).

(** Reading an attribute of [self]. *)
Definition getattr (field : Object -> val) : M val :=
  fun s => (Ok (field (self s)), s).

(** Assigning the attributes [C], [L], [R], [G] of [self]. *)
Definition setattr_C (v : val) : M () := fun s =>
  let o := self s in
  (Ok (), mkState (mkObject (o_frequency o) v (o_L o) (o_R o) (o_G o)) (mem s)).
Definition setattr_L (v : val) : M () := fun s =>
  let o := self s in
  (Ok (), mkState (mkObject (o_frequency o) (o_C o) v (o_R o) (o_G o)) (mem s)).
Definition setattr_R (v : val) : M () := fun s =>
  let o := self s in
  (Ok (), mkState (mkObject (o_frequency o) (o_C o) (o_L o) v (o_G o)) (mem s)).
Definition setattr_G (v : val) : M () := fun s =>
  let o := self s in
  (Ok (), mkState (mkObject (o_frequency o) (o_C o) (o_L o) (o_R o) v) (mem s)).

(** [self.frequency.w] *)
Definition get_w : M val := fun s =>
  match o_frequency (self s) with
  | Some (_, p) => (Ok (VArr p), s)
  | None => (Raise AttributeError, s)
  end.

(** The number or array a value stands for in a store. *)
Definition deref (h : store) (v : val) : numlike :=
  match v with
  | VNum c => Scalar c
  | VArr p => Vec (h !!! p)
  end.

(** A result of arithmetic: a number, or an array at a fresh address. *)
Definition new_value (x : numlike) : M val := fun s =>
  match x with
  | Scalar c => (Ok (VNum c), s)
  | Vec l =>
      let p := fresh (dom (mem s)) in
      (Ok (VArr p), mkState (self s) (<[p := l]> (mem s)))
  end.

Definition binop (f : complex -> complex -> complex) (a b : val) : M val :=
  fun s =>
    match broadcast2 f (deref (mem s) a) (deref (mem s) b) with
    | Ok x => new_value x s
    | Raise e => (Raise e, s)
    end.

Definition unop (f : complex -> complex) (a : val) : M val :=
  fun s => new_value (map1 f (deref (mem s) a)) s.

(** [A[A.imag == 0] += 1j*1e-12]: the selected samples of the array [A]
    are overwritten where they are. *)
Definition iadd_where_imag_zero (a : val) : M () := fun s =>
  match a with
  | VArr p =>
      (Ok (), mkState (self s) (<[p := nudge <$> mem s !!! p]> (mem s)))
  | VNum _ => (Raise TypeError, s)
  end.

(** Property [Z], statement by statement. *)
Definition get_Z : M val :=
  w ← get_w;
  R ← getattr o_R;
  jw ← binop Cmul (VNum Ci) w;
  L ← getattr o_L;
  jwL ← binop Cmul jw L;
  Z ← binop Cadd R jwL;
  iadd_where_imag_zero Z;;
  mret Z.

(** Property [Y], statement by statement. *)
Definition get_Y : M val :=
  w ← get_w;
  G ← getattr o_G;
  jw ← binop Cmul (VNum Ci) w;
  C ← getattr o_C;
  jwC ← binop Cmul jw C;
  Y ← binop Cadd G jwC;
  iadd_where_imag_zero Y;;
  mret Y.

(** Property [z0_characteristic]. *)
Definition get_z0_characteristic : M val :=
  Z ← get_Z;
  Y ← get_Y;
  q ← binop Cdiv Z Y;
  unop csqrt q.

(** Property [gamma]. *)
Definition get_gamma : M val :=
  Z ← get_Z;
  Y ← get_Y;
  p ← binop Cmul Z Y;
  unop csqrt p.

(** What a caller sees of a property access: the value returned, read in
    the store the access leaves behind, or the exception. *)
Definition observe (m : M val) (s : state) : result numlike :=
  match m s with
  | (Ok v, s') => Ok (deref (mem s') v)
  | (Raise e, _) => Raise e
  end.

(** The state an access leaves behind. *)
Definition after {A} (m : M A) (s : state) : state := snd (m s).

(** The attributes of a state as values: the mode it represents. *)
Definition snapshot (s : state) : Mode :=
  let o := self s in
  {| base := {| frequency := fst <$> o_frequency o;
                z0_port := None;
                z0_override := None |};
     C' := deref (mem s) (o_C o);
     L' := deref (mem s) (o_L o);
     R' := deref (mem s) (o_R o);
     G' := deref (mem s) (o_G o) |}.

(** Well-formed states: every address held by an attribute is allocated,
    and the array behind [frequency.w] holds the grid's angular
    frequencies. *)
Definition val_ok (h : store) (v : val) : Prop :=
  match v with
  | VNum _ => True
  | VArr p => is_Some (h !! p)
  end.

Definition wf (s : state) : Prop :=
  let o := self s in
  val_ok (mem s) (o_C o) /\ val_ok (mem s) (o_L o) /\
  val_ok (mem s) (o_R o) /\ val_ok (mem s) (o_G o) /\
  match o_frequency o with
  | Some (f, p) => mem s !! p = Some (RtoC <$> w f)
  | None => True
  end.

(** Assignment to, and access of, an attribute or a property by name. *)
Inductive attr : Type := attr_C | attr_L | attr_R | attr_G.

Definition setattr (a : attr) : val -> M () :=
  match a with
  | attr_C => setattr_C
  | attr_L => setattr_L
  | attr_R => setattr_R
  | attr_G => setattr_G
  end.

Inductive derived : Type := d_Z | d_Y | d_z0_characteristic | d_gamma.

Definition read (d : derived) : M val :=
  match d with
  | d_Z => get_Z
  | d_Y => get_Y
  | d_z0_characteristic => get_z0_characteristic
  | d_gamma => get_gamma
  end.

(** ** Signed zeros

    A [float64] has two zeros, [+0.0] and [-0.0].  They compare equal and
    stand for the same real number, but numpy's complex square root tells
    them apart on its branch cut.  This section embeds the computation of
    [gamma] once more, for one sample of the arrays (the operations of the
    source are elementwise), with numbers that keep the sign of zero.
    Rounding is idealised as before. *)

(** A [float64] without its rounding: the real number it stands for and,
    for zero, whether it is [-0.0].  (For a non-zero number the second
    field is not looked at.) *)
Record float : Type := mkF { fval : R; minus_zero : bool }.

Definition negative (x : R) : bool := if Rlt_dec x 0 then true else false.

(** The sign bit: the sign of a non-zero number, and what tells the two
    zeros apart. *)
Definition signbit (a : float) : bool :=
  if Req_dec_T (fval a) 0 then minus_zero a else negative (fval a).

(** A number written in the program or held in a real array: its zero is
    [+0.0]. *)
Definition fl (x : R) : float := mkF x false.

(** IEEE 754 arithmetic.  The sign of a product is the exclusive or of
    the signs of the factors.  A sum that is exactly zero is [-0.0] when
    both terms are [-0.0], and [+0.0] otherwise (round to nearest). *)
Definition fmul (a b : float) : float :=
  mkF (fval a * fval b) (xorb (signbit a) (signbit b)).

Definition fadd (a b : float) : float :=
  mkF (fval a + fval b) (signbit a && signbit b).

Definition fneg (a : float) : float :=
  mkF (- fval a) (negb (signbit a)).

Definition fsub (a b : float) : float := fadd a (fneg b).

(** A [complex128]. *)
Record cfloat : Type := mkCF { fre : float; fim : float }.

(** The real and complex numbers these stand for. *)
Definition exact (a : cfloat) : complex := mkC (fval (fre a)) (fval (fim a)).

(** A real number where a complex one is expected (a Python [int] or
    [float], a sample of [w]): numpy converts it to [complex128] with
    imaginary part [+0.0]. *)
Definition creal (x : R) : cfloat := mkCF (fl x) (fl 0).

(** The literal [1j]. *)
Definition j_ieee : cfloat := mkCF (fl 0) (fl 1).

(** Sum and product of [complex128]: numpy computes
    [(ar + br, ai + bi)] and [(ar*br - ai*bi, ar*bi + ai*br)]. *)
Definition cadd_ieee (a b : cfloat) : cfloat :=
  mkCF (fadd (fre a) (fre b)) (fadd (fim a) (fim b)).

Definition cmul_ieee (a b : cfloat) : cfloat :=
  mkCF (fsub (fmul (fre a) (fre b)) (fmul (fim a) (fim b)))
       (fadd (fmul (fre a) (fim b)) (fmul (fim a) (fre b))).

(** numpy's [sqrt] on [complex128]: the square root with non-negative
    real part whose imaginary part has the sign bit of the imaginary part
    of the radicand. *)
Definition csqrt_ieee (z : cfloat) : cfloat :=
  let m := Cmod (exact z) in
  let x := fval (fre z) in
  mkCF (fl (sqrt ((m + x) / 2)))
       (mkF ((if signbit (fim z) then -1 else 1) * sqrt ((m - x) / 2))
            (signbit (fim z))).

(** One sample of [A[A.imag == 0] += 1j*1e-12]; both zeros compare equal
    to [0]. *)
Definition nudge_ieee (z : cfloat) : cfloat :=
  if Req_dec_T (fval (fim z)) 0
  then cadd_ieee z (cmul_ieee j_ieee (creal guard_eps))
  else z.

(** One sample of the properties [Z], [Y] and [gamma] at the angular
    frequency [omega]. *)
Definition Z_ieee (omega : R) (r l : cfloat) : cfloat :=
  nudge_ieee (cadd_ieee r (cmul_ieee (cmul_ieee j_ieee (creal omega)) l)).

Definition Y_ieee (omega : R) (g c : cfloat) : cfloat :=
  nudge_ieee (cadd_ieee g (cmul_ieee (cmul_ieee j_ieee (creal omega)) c)).

Definition gamma_ieee (omega : R) (r l g c : cfloat) : cfloat :=
  csqrt_ieee (cmul_ieee (Z_ieee omega r l) (Y_ieee omega g c)).

(** The complex conjugate. *)
Definition Cconj (z : complex) : complex := mkC (re z) (- im z).

(** ** Vocabulary of the statements *)

(** The value layer's counterparts of [setattr] and [read]. *)
Definition with_attr (a : attr) (x : numlike) (m : Mode) : Mode :=
  match a with
  | attr_C => mkMode (base m) x (L' m) (R' m) (G' m)
  | attr_L => mkMode (base m) (C' m) x (R' m) (G' m)
  | attr_R => mkMode (base m) (C' m) (L' m) x (G' m)
  | attr_G => mkMode (base m) (C' m) (L' m) (R' m) x
  end.

Definition value_of (d : derived) : Mode -> result numlike :=
  match d with
  | d_Z => Z'
  | d_Y => Y'
  | d_z0_characteristic => z0_characteristic
  | d_gamma => gamma
  end.

(** Two shapes clash when both are arrays, their lengths differ and
    neither length is one. *)
Definition clash (a b : option nat) : bool :=
  match a, b with
  | Some n, Some m =>
      negb (n =? m)%nat && negb (n =? 1)%nat && negb (m =? 1)%nat
  | _, _ => false
  end.

(** The shape of the result when two shapes do not clash. *)
Definition join_shape (a b : option nat) : option nat :=
  match a, b with
  | None, s | s, None => s
  | Some n, Some m => Some (if (n =? 1)%nat then m else n)
  end.

(** [b + 1j*w*a] over a grid of shape [N]: whether it raises, and the
    shape of its result otherwise. *)
Definition raw_clash (N a b : option nat) : bool :=
  clash N a || clash N b || clash a b.
Definition raw_shape (N a b : option nat) : option nat :=
  join_shape b (join_shape N a).

(** The guard as a relation between a sample before and after it. *)
Definition guarded (z z' : complex) : Prop :=
  (im z = 0 /\ z' = Cadd z (mkC 0 1e-12)) \/ (im z <> 0 /\ z' = z).

Definition nonzero (z : complex) : Prop := z <> mkC 0 0.

(** The sample of a value at index [k]: a scalar is the same at every
    index. *)
Definition sample_at (x : numlike) (k : nat) : option complex :=
  match x with
  | Scalar c => Some c
  | Vec l => l !! k
  end.

(** A parameter that is a scalar or an array of the grid's length. *)
Definition well_shaped (N : nat) (x : numlike) : Prop :=
  shape x = None \/ shape x = Some N.

(** The four parameters of a mode are so shaped. *)
Definition parameters_fit (N : nat) (m : Mode) : Prop :=
  well_shaped N (R' m) /\ well_shaped N (L' m) /\
  well_shaped N (G' m) /\ well_shaped N (C' m).

(** What the guard has made of the sum [a + 1j*w*b] on the grid [f], [raw]
    being the outcome of the sum and [out] the outcome of the property:
    both are arrays of the grid's length; the sample of [raw] at index [k]
    is [a[k] + 1j*w[k]*b[k]] (a scalar counting the same at every index);
    each sample of [out] is the sample of [raw] increased by [1e-12 j]
    when its imaginary part is exactly zero and kept otherwise; no sample
    of [out] has imaginary part zero; and at a DC sample ([w[k] = 0]) with
    a real [a[k]] the sample of [out] is [a[k] + 1e-12 j]. *)
Definition guard_applied (f : Frequency) (a b : numlike)
    (raw out : result numlike) : Prop :=
  exists rs zs,
    raw = Ok (Vec rs) /\ out = Ok (Vec zs) /\
    length rs = length (w f) /\ length zs = length (w f) /\
    (forall k omega x y,
       w f !! k = Some omega ->
       sample_at a k = Some x -> sample_at b k = Some y ->
       rs !! k = Some (Cadd x (Cmul (Cmul Ci (RtoC omega)) y))) /\
    Forall2 guarded rs zs /\
    Forall (fun z => im z <> 0) zs /\
    (forall k x,
       w f !! k = Some 0 -> sample_at a k = Some x -> im x = 0 ->
       zs !! k = Some (mkC (re x) 1e-12)).


(** One sample of [Z] (or of [Y]) at angular frequency [omega]. *)
Definition Z'_sample (omega : R) (r l : complex) : complex :=
  nudge (Cadd r (Cmul (Cmul Ci (RtoC omega)) l)).

(** A value read sample by sample along a list [ts] of indices: an array
    holds one sample per index, a scalar is the same at every index. *)
Definition spread {T} (ts : list T) (s : T -> complex) (x : numlike) : Prop :=
  x = Vec (s <$> ts) \/ exists c, x = Scalar c /\ forall t, s t = c.

(** Agreement within an absolute tolerance. *)
Definition close_to (tol : R) (a b : complex) : Prop :=
  Rabs (re a - re b) <= tol /\ Rabs (im a - im b) <= tol.


Definition all_close (tol : R) (x : numlike) (c : complex) : Prop :=
  match x with
  | Scalar a => close_to tol a c
  | Vec l => Forall (fun a => close_to tol a c) l
  end.

(** A mode built from four real scalars. *)
Definition scalar_mode (f : Frequency) (port : option numlike)
    (r l g c : R) : Mode :=
  __init__ (Some f) port None None
    (Some (Scalar (RtoC c))) (Some (Scalar (RtoC l)))
    (Some (Scalar (RtoC r))) (Some (Scalar (RtoC g))).

(** The round trip from parameters to wave descriptors and back, as the
    specification words it: for every mode built from scalar parameters
    over a grid without DC. *)
Definition every_scalar_mode_roundtrips (tol : R) : Prop :=
  forall (f : Frequency) (port : option numlike) (r l g c : R),
    Forall (fun omega => omega <> 0) (w f) ->
    exists g1 z1 M2,
      gamma (scalar_mode f port r l g c) = Ok g1 /\
      z0_characteristic (scalar_mode f port r l g c) = Ok z1 /\
      from_media (mkMedia (Some f) g1 z1 port) = Ok M2 /\
      all_close tol (R' M2) (RtoC r) /\ all_close tol (L' M2) (RtoC l) /\
      all_close tol (G' M2) (RtoC g) /\ all_close tol (C' M2) (RtoC c).



(** Some array-valued parameter has a length other than the grid's.  (Two
    arrays of different lengths cannot both have the grid's length.) *)
Definition param_shapes (m : Mode) : list (option nat) :=
  [shape (R' m); shape (L' m); shape (G' m); shape (C' m)].

Definition lengths_mismatch (N : nat) (m : Mode) : Prop :=
  exists n, Some n ∈ param_shapes m /\ n <> N.

(** Deferred error surfacing, as the specification words it. *)
Definition deferred_errors_claim : Prop :=
  forall freq port override alias C L R G,
    let m := __init__ freq port override alias C L R G in
    match freq with
    | Some f =>
        lengths_mismatch (length (w f)) m ->
        Z' m = Raise ValueError \/ Y' m = Raise ValueError
    | None =>
        Z' m = Raise AttributeError /\ Y' m = Raise AttributeError /\
        z0_characteristic m = Raise AttributeError /\
        gamma m = Raise AttributeError
    end.

(** One state of the imperative layer extends another when the attributes
    are the same and every array of the first is still there, unchanged. *)
Definition extends (s s' : state) : Prop :=
  self s' = self s /\ mem s ⊆ mem s'.

(** What an access must establish with respect to its value semantics
    [pure]: the state only grows, and the outcome is the one of [pure], an
    array result living at an address that was free before. *)
Definition agrees (pure : result numlike) (s : state)
    (out : result val * state) : Prop :=
  extends s out.2 /\
  match out.1 with
  | Ok v =>
      val_ok (mem out.2) v /\ pure = Ok (deref (mem out.2) v) /\
      forall p, v = VArr p -> mem s !! p = None
  | Raise e => pure = Raise e
  end.

(** An access that only reads: the attributes and every array present
    before are as they were, an array returned is a new one, and repeating
    the access returns the same value. *)
Definition read_only (d : derived) (s : state) : Prop :=
  let s' := after (read d) s in
  self s' = self s /\
  (forall p l, mem s !! p = Some l -> mem s' !! p = Some l) /\
  (forall p, (read d s).1 = Ok (VArr p) -> mem s !! p = None) /\
  wf s' /\ snapshot s' = snapshot s /\
  observe (read d) s' = observe (read d) s.

(** ** Concrete grids, modes and states used in the examples *)

Definition grid1 : Frequency := mkFrequency [1] [1] "rad/s" 1.
Definition grid01 : Frequency := mkFrequency [0; 1] [0; 1] "rad/s" 2.
Definition grid123 : Frequency := mkFrequency [1; 2; 3] [1; 2; 3] "rad/s" 3.

(** The default line on a grid that starts at DC. *)
Definition dc_mode : Mode :=
  __init__ (Some grid01) None None None None None None None.

(** A line whose inductance is given per sample. *)
Definition vector_L_mode : Mode :=
  __init__ (Some grid123) None None None
    None (Some (Vec [RtoC 280e-9; RtoC 280e-9; RtoC 280e-9])) None None.

Definition media1 : Media :=
  mkMedia (Some (mkFrequency [2] [2] "rad/s" 1))
    (Vec [mkC 1 1]) (Vec [mkC 1 0]) None.

(** A state whose resistance is an array of zeros kept in the store and
    whose inductance is zero, on a grid that starts at DC: every sample of
    [Z] triggers the guard. *)
Definition heap2 : store :=
  {[ 0%nat := [RtoC 0; RtoC 1]; 1%nat := [RtoC 0; RtoC 0] ]}.
Definition state2 : state :=
  mkState (mkObject (Some (grid01, 0%nat))
             (VNum (RtoC 90e-12)) (VNum (RtoC 0)) (VArr 1%nat) (VNum (RtoC 0)))
          heap2.

(** A stand-in for Python's number formatting. *)
Definition any_text {A} (x : A) : string := "#".

(** ** Vocabulary of the further properties *)

(** A complex number that is a real number with the property [P]. *)
Definition real_with (P : R -> Prop) (c : complex) : Prop :=
  im c = 0 /\ P (re c).

(** Every sample below [N] of a value is a real number with the property
    [P]. *)
Definition samples_real (N : nat) (P : R -> Prop) (x : numlike) : Prop :=
  forall k c, (k < N)%nat -> sample_at x k = Some c -> real_with P c.

(** The mode with series and shunt parameters exchanged. *)
Definition dual (m : Mode) : Mode :=
  mkMode (base m) (L' m) (C' m) (G' m) (R' m).

(** A media that exposes scalar [gamma] and [z0]. *)
Definition scalar_media : Media :=
  mkMedia (Some grid123) (Scalar (mkC 1 1)) (Scalar (mkC 2 1)) None.

(** What [out] must be to follow the sample law of [a + 1j*w*b] with the
    guard: an array of the grid's length whose sample at each index is
    the guarded sum of the samples of [a], [w] and [b] there; for real
    samples its real part is that of [a], and its imaginary part is
    [w*b], or [1e-12] where [w*b] is zero. *)
Definition follows_sample_law (f : Frequency) (a b : numlike)
    (out : result numlike) : Prop :=
  exists zs, out = Ok (Vec zs) /\ length zs = length (w f) /\
    forall k omega x y,
      w f !! k = Some omega ->
      sample_at a k = Some x -> sample_at b k = Some y ->
      zs !! k = Some (nudge (Cadd x (Cmul (Cmul Ci (RtoC omega)) y))) /\
      forall z, zs !! k = Some z -> im x = 0 -> im y = 0 ->
        re z = re x /\
        (omega * re y <> 0 -> im z = omega * re y) /\
        (omega * re y = 0 -> im z = 1e-12).

(** A mode constructed without a grid. *)
Definition gridless_mode : Mode :=
  __init__ None None None None None None None None.

(** * Properties *)

(** ** Complex arithmetic and the principal square root *)

Lemma complex_eq (a b : complex) : re a = re b -> im a = im b -> a = b.
Proof. destruct a, b; simpl; intros -> ->; reflexivity. Qed.

Lemma Cnorm2_nonneg z : 0 <= Cnorm2 z.
Proof. unfold Cnorm2. nra. Qed.

Lemma Cmod_nonneg z : 0 <= Cmod z.
Proof. apply sqrt_pos. Qed.

Lemma Cmod_sqr z : Cmod z * Cmod z = Cnorm2 z.
Proof. apply sqrt_sqrt, Cnorm2_nonneg. Qed.

Lemma Cmod_ge_re z : Rabs (re z) <= Cmod z.
Proof.
  pose proof (Cmod_nonneg z) as Hm. pose proof (Cmod_sqr z) as Hs.
  unfold Cnorm2 in Hs.
  unfold Rabs. destruct (Rcase_abs (re z)); nra.
Qed.

Lemma csqrt_radicands z :
  0 <= (Cmod z + re z) / 2 /\ 0 <= (Cmod z - re z) / 2.
Proof.
  pose proof (Cmod_ge_re z) as Hr. unfold Rabs in Hr.
  destruct (Rcase_abs (re z)); lra.
Qed.

(** The square of [csqrt z] is [z]. *)
Lemma csqrt_sqr z : Cmul (csqrt z) (csqrt z) = z.
Proof.
  pose proof (Cmod_nonneg z) as Hm. pose proof (Cmod_sqr z) as Hs.
  unfold Cnorm2 in Hs.
  destruct (csqrt_radicands z) as [Hp Hq].
  pose proof (sqrt_sqrt _ Hp) as Sp. pose proof (sqrt_sqrt _ Hq) as Sq.
  assert (Hpq : sqrt ((Cmod z + re z) / 2) * sqrt ((Cmod z - re z) / 2)
                = Rabs (im z) / 2).
  { rewrite <- sqrt_mult by assumption.
    apply sqrt_lem_1.
    - nra.
    - pose proof (Rabs_pos (im z)). lra.
    - replace (Rabs (im z) / 2 * (Rabs (im z) / 2))
        with ((Rabs (im z) * Rabs (im z)) / 4) by field.
      rewrite <- Rabs_mult, Rabs_right by nra. nra. }
  apply complex_eq; unfold csqrt, Cmul; simpl.
  - destruct (Rlt_dec (im z) 0); nra.
  - destruct (Rlt_dec (im z) 0) as [Hlt|Hge].
    + rewrite Rabs_left in Hpq by assumption. nra.
    + rewrite Rabs_right in Hpq by lra. nra.
Qed.

(** [csqrt] lands in the principal half-plane. *)
Lemma csqrt_principal z : principal (csqrt z).
Proof.
  split; unfold csqrt; simpl.
  - apply sqrt_pos.
  - intros H0.
    pose proof (Cmod_nonneg z) as Hm. pose proof (Cmod_sqr z) as Hs.
    unfold Cnorm2 in Hs.
    destruct (csqrt_radicands z) as [Hp _].
    apply sqrt_eq_0 in H0; [|assumption].
    assert (im z = 0) by nra.
    destruct (Rlt_dec (im z) 0); [lra|].
    pose proof (sqrt_pos ((Cmod z - re z) / 2)). lra.
Qed.

(** Two principal numbers with the same square are equal. *)
Lemma principal_unique u v :
  principal u -> principal v -> Cmul u u = Cmul v v -> u = v.
Proof.
  intros [Hu1 Hu2] [Hv1 Hv2] H.
  destruct u as [a b], v as [c d]. unfold Cmul in H. simpl in *.
  injection H as H1 H2.
  assert (Hn : a * a + b * b = c * c + d * d).
  { assert (Hsq : (a*a+b*b)*(a*a+b*b) = (c*c+d*d)*(c*c+d*d)).
    { replace ((a*a+b*b)*(a*a+b*b))
        with ((a*a-b*b)*(a*a-b*b) + (a*b+b*a)*(a*b+b*a)) by ring.
      rewrite H1, H2. ring. }
    nra. }
  assert (a = c) by nra. subst c.
  f_equal.
  destruct (Req_dec a 0) as [->|Ha].
  - specialize (Hu2 eq_refl). specialize (Hv2 eq_refl). nra.
  - nra.
Qed.

Lemma csqrt_unique u z : principal u -> Cmul u u = z -> csqrt z = u.
Proof.
  intros Hu Hz. apply principal_unique; auto using csqrt_principal.
  rewrite csqrt_sqr. auto.
Qed.

Lemma nonzero_norm z : nonzero z -> Cnorm2 z <> 0.
Proof.
  intros Hz Hn. apply Hz. unfold Cnorm2 in Hn.
  apply complex_eq; simpl; nra.
Qed.


Lemma Cdiv_real a b : Cdiv (RtoC a) (RtoC b) = RtoC (a / b).
Proof.
  apply complex_eq; unfold Cdiv, Cnorm2; simpl.
  - destruct (Req_dec b 0) as [->|Hb]; [|by field].
    unfold Rdiv. rewrite !Rmult_0_r, Rplus_0_r, Rinv_0. ring.
  - unfold Rdiv. ring.
Qed.

Lemma Cmul_Cdiv_sqr g z :
  nonzero z -> Cmul (Cmul g z) (Cdiv g z) = Cmul g g.
Proof.
  intros Hz%nonzero_norm. destruct g as [a b], z as [c d].
  unfold Cnorm2 in Hz. simpl in Hz.
  apply complex_eq; unfold Cmul, Cdiv, Cnorm2; simpl; field; done.
Qed.

Lemma Cdiv_Cmul_sqr g z :
  nonzero g -> nonzero z -> Cdiv (Cmul g z) (Cdiv g z) = Cmul z z.
Proof.
  intros Hg%nonzero_norm Hz%nonzero_norm. destruct g as [a b], z as [c d].
  unfold Cnorm2 in Hg, Hz. simpl in Hg, Hz.
  apply complex_eq; unfold Cmul, Cdiv, Cnorm2; simpl; field; split; try done.
  all: intros E; apply Hg.
  all: assert (E' : (a * a + b * b) * (c * c + d * d) = 0)
         by (field_simplify in E; nra).
  all: nra.
Qed.

Lemma Cmul_sqr_mul p q :
  Cmul (Cmul p q) (Cmul p q) = Cmul (Cmul p p) (Cmul q q).
Proof. apply complex_eq; unfold Cmul; simpl; ring. Qed.

Lemma Cdiv_sqr_div p q :
  nonzero q -> Cmul (Cdiv p q) (Cdiv p q) = Cdiv (Cmul p p) (Cmul q q).
Proof.
  intros Hq%nonzero_norm. destruct p as [a b], q as [c d].
  unfold Cnorm2 in Hq. simpl in Hq.
  apply complex_eq; unfold Cmul, Cdiv, Cnorm2; simpl; field; split; try done.
  all: intros E; apply Hq; nra.
Qed.

(** The root of a number of the closed first quadrant, off the real axis,
    lies in the open first quadrant, at or below the diagonal. *)
Lemma csqrt_upper z :
  0 <= re z -> 0 < im z ->
  0 < re (csqrt z) /\ 0 < im (csqrt z) /\ im (csqrt z) <= re (csqrt z).
Proof.
  intros Hr Hi.
  pose proof (csqrt_sqr z) as Hs. destruct (csqrt_principal z) as [Hp _].
  destruct (csqrt z) as [x y]. destruct z as [a b].
  unfold Cmul in Hs. simpl in *. injection Hs as H1 H2.
  assert (Hx : 0 < x).
  { destruct (Req_dec x 0) as [->|Hx]; lra. }
  assert (Hy : 0 < y).
  { destruct (Rle_or_lt y 0) as [Hy|Hy]; [|exact Hy].
    assert (x * y <= 0) by nra. lra. }
  repeat split; try assumption.
  destruct (Rle_or_lt y x) as [Hyx|Hyx]; [exact Hyx|].
  assert (x * x < y * y) by nra. lra.
Qed.

(** For [a] and [b] in that region the roots of the product and of the
    quotient multiply back to [a] and divide back to [b]. *)
Lemma sqrt_pair a b :
  0 <= re a -> 0 < im a -> 0 <= re b -> 0 < im b ->
  Cmul (csqrt (Cmul a b)) (csqrt (Cdiv a b)) = a /\
  Cdiv (csqrt (Cmul a b)) (csqrt (Cdiv a b)) = b.
Proof.
  intros Ha1 Ha2 Hb1 Hb2.
  destruct (csqrt_upper a Ha1 Ha2) as (Hp1 & Hp2 & Hp3).
  destruct (csqrt_upper b Hb1 Hb2) as (Hq1 & Hq2 & Hq3).
  pose proof (csqrt_sqr a) as Sp. pose proof (csqrt_sqr b) as Sq.
  set (p := csqrt a) in *. set (q := csqrt b) in *.
  assert (Np : nonzero p) by (intros E; rewrite E in Hp1; simpl in Hp1; lra).
  assert (Nq : nonzero q) by (intros E; rewrite E in Hq1; simpl in Hq1; lra).
  assert (E1 : csqrt (Cmul a b) = Cmul p q).
  { apply csqrt_unique.
    - assert (im p * im q <= re p * re q) by (apply Rmult_le_compat; lra).
      assert (0 < re p * im q) by (apply Rmult_lt_0_compat; lra).
      assert (0 < im p * re q) by (apply Rmult_lt_0_compat; lra).
      split; unfold Cmul; cbn [re im]; [lra|]. intros _. lra.
    - rewrite Cmul_sqr_mul. by rewrite Sp, Sq. }
  assert (E2 : csqrt (Cdiv a b) = Cdiv p q).
  { apply csqrt_unique.
    - assert (0 < re (Cdiv p q)).
      { assert (0 < re p * re q) by (apply Rmult_lt_0_compat; lra).
        assert (0 < im p * im q) by (apply Rmult_lt_0_compat; lra).
        assert (0 < re q * re q) by (apply Rmult_lt_0_compat; lra).
        assert (0 < im q * im q) by (apply Rmult_lt_0_compat; lra).
        unfold Cdiv, Cnorm2; cbn [re im].
        apply Rdiv_lt_0_compat; lra. }
      split; [lra|]. intros; lra.
    - rewrite Cdiv_sqr_div by assumption. by rewrite Sp, Sq. }
  rewrite E1, E2. split.
  - by rewrite Cmul_Cdiv_sqr.
  - by rewrite Cdiv_Cmul_sqr.
Qed.

(** ** Broadcasting *)

Lemma bind_Ok {A B} (a : A) (k : A -> result B) : (Ok a ≫= k) = k a.
Proof. reflexivity. Qed.

Lemma bind_Raise {A B} e (k : A -> result B) : (Raise e ≫= k) = Raise e.
Proof. reflexivity. Qed.

Ltac eqb_cases :=
  repeat match goal with
    | |- context [(?x =? ?y)%nat] =>
        destruct (Nat.eqb_spec x y); simpl in *; subst
    | H : context [(?x =? ?y)%nat] |- _ =>
        destruct (Nat.eqb_spec x y); simpl in *; subst
    end;
  try lia; try congruence.

Lemma broadcast2_clash f x y :
  clash (shape x) (shape y) = true -> broadcast2 f x y = Raise ValueError.
Proof.
  destruct x as [a|l1], y as [b|l2]; simpl; try discriminate.
  intros H. apply andb_prop in H as [H H3]. apply andb_prop in H as [H1 H2].
  apply negb_true_iff, Nat.eqb_neq in H1, H2, H3.
  destruct (Nat.eq_dec _ _) as [E|_]; [contradiction|].
  destruct l1 as [|a [|a' l1]], l2 as [|b [|b' l2]]; simpl in *; congruence.
Qed.

Lemma broadcast2_fits f x y :
  clash (shape x) (shape y) = false ->
  exists z, broadcast2 f x y = Ok z /\ shape z = join_shape (shape x) (shape y).
Proof.
  destruct x as [a|l1], y as [b|l2]; simpl; intros H.
  - eexists; split; [reflexivity|]. reflexivity.
  - eexists; split; [reflexivity|]. simpl. by rewrite length_fmap.
  - eexists; split; [reflexivity|]. simpl. by rewrite length_fmap.
  - destruct (Nat.eq_dec _ _) as [E|NE].
    + eexists; split; [reflexivity|]. simpl.
      rewrite length_zip_with, <- E, Nat.min_id.
      destruct (length l1 =? 1)%nat eqn:E1;
        [apply Nat.eqb_eq in E1|]; congruence.
    + apply Nat.eqb_neq in NE as NE'. rewrite NE' in H. simpl in H.
      destruct l1 as [|a [|a' l1]], l2 as [|b [|b' l2]]; simpl in *;
        try discriminate; try lia;
        (eexists; split; [reflexivity|]); simpl; rewrite ?length_fmap;
        reflexivity.
Qed.

Lemma broadcast2_same_length f l1 l2 :
  length l1 = length l2 ->
  broadcast2 f (Vec l1) (Vec l2) = Ok (Vec (zip_with f l1 l2)).
Proof. intros E. unfold broadcast2. by destruct (Nat.eq_dec _ _). Qed.

Lemma clash_join n a b :
  clash (Some n) a = false ->
  clash b (join_shape (Some n) a) = clash (Some n) b || clash a b.
Proof.
  destruct a as [m|], b as [k|]; simpl; try reflexivity.
  - intros H. eqb_cases.
  - intros H. eqb_cases.
Qed.

Lemma np_mul_j_w f :
  np_mul (Scalar Ci) (w_array f)
  = Ok (Vec ((fun x => Cmul Ci (RtoC x)) <$> w f)).
Proof. unfold np_mul, w_array. simpl. by rewrite <- list_fmap_compose. Qed.

(** When [b + 1j*w*a] raises, and the length of its result otherwise. *)
Lemma raw_cases f (a b : numlike) :
  let N := Some (length (w f)) in
  let raw := (jw ← np_mul (Scalar Ci) (w_array f);
              jwa ← np_mul jw a; np_add b jwa) in
  if raw_clash N (shape a) (shape b)
  then raw = Raise ValueError
  else exists v, raw = Ok (Vec v) /\
         Some (length v) = raw_shape N (shape a) (shape b).
Proof.
  intros N raw. subst raw. unfold raw_clash, raw_shape.
  rewrite np_mul_j_w, bind_Ok.
  set (jw := Vec _).
  assert (Hjw : shape jw = N) by (subst jw N; simpl; by rewrite length_fmap).
  subst N.
  destruct (clash (Some (length (w f))) (shape a)) eqn:E1.
  { cbn [orb]. unfold np_mul. rewrite broadcast2_clash; [done|].
    by rewrite Hjw. }
  destruct (broadcast2_fits Cmul jw a) as (t & Ht & Hs); [by rewrite Hjw|].
  unfold np_mul. rewrite Ht, bind_Ok. rewrite Hjw in Hs. cbn [orb].
  rewrite <- (clash_join _ _ _ E1), <- Hs.
  destruct (clash (shape b) (shape t)) eqn:E2.
  - unfold np_add. by rewrite broadcast2_clash.
  - destruct (broadcast2_fits Cadd b t) as (z & Hz & Hsz); [assumption|].
    unfold np_add. rewrite Hz.
    destruct z as [c|v].
    + rewrite <- Hjw in Hs.
      destruct (shape b); simpl in Hsz; rewrite Hs in Hsz;
        destruct (shape a); discriminate.
    + exists v. split; [reflexivity|]. exact Hsz.
Qed.

(** ** The guard, [Z] and [Y] *)

Lemma nudge_guarded z : guarded z (nudge z).
Proof.
  unfold guarded, nudge.
  destruct (Req_dec_T (im z) 0) as [E|NE]; [left|right; done].
  split; [done|]. apply complex_eq; simpl; unfold guard_eps; lra.
Qed.

Lemma nudge_im z : im (nudge z) <> 0.
Proof.
  destruct (nudge_guarded z) as [[E ->]|[NE ->]]; simpl; [lra|done].
Qed.

Lemma nudge_id z : im z <> 0 -> nudge z = z.
Proof. unfold nudge. destruct (Req_dec_T (im z) 0); done. Qed.

Lemma Forall2_nudge raw : Forall2 guarded raw (nudge <$> raw).
Proof. induction raw; simpl; constructor; auto using nudge_guarded. Qed.

Lemma Forall_nudge raw : Forall (fun z => im z <> 0) (nudge <$> raw).
Proof. induction raw; simpl; constructor; auto using nudge_im. Qed.

Lemma frequency_w_Some b f :
  frequency b = Some f -> frequency_w b = Ok (w_array f).
Proof. unfold frequency_w. by intros ->. Qed.

Lemma frequency_w_None b :
  frequency b = None -> frequency_w b = Raise AttributeError.
Proof. unfold frequency_w. by intros ->. Qed.

Lemma Z'_inv self x :
  Z' self = Ok x ->
  exists raw, Z'_raw self = Ok (Vec raw) /\ x = Vec (nudge <$> raw).
Proof.
  unfold Z'. destruct (Z'_raw self) as [[c|raw]|e]; simpl; try discriminate.
  intros [= <-]. eauto.
Qed.

Lemma Y'_inv self x :
  Y' self = Ok x ->
  exists raw, Y'_raw self = Ok (Vec raw) /\ x = Vec (nudge <$> raw).
Proof.
  unfold Y'. destruct (Y'_raw self) as [[c|raw]|e]; simpl; try discriminate.
  intros [= <-]. eauto.
Qed.

Lemma Z'_cases self f :
  frequency (base self) = Some f ->
  let N := Some (length (w f)) in
  if raw_clash N (shape (L' self)) (shape (R' self))
  then Z' self = Raise ValueError
  else exists v, Z' self = Ok (Vec v) /\
         Some (length v) = raw_shape N (shape (L' self)) (shape (R' self)).
Proof.
  intros Hf N.
  pose proof (raw_cases f (L' self) (R' self)) as H. cbv zeta in H.
  fold N in H. unfold Z', Z'_raw.
  rewrite (frequency_w_Some _ _ Hf), bind_Ok.
  destruct (raw_clash _ _ _).
  - by rewrite H.
  - destruct H as (v & -> & Hl). exists (nudge <$> v).
    split; [reflexivity|]. by rewrite length_fmap.
Qed.

Lemma Y'_cases self f :
  frequency (base self) = Some f ->
  let N := Some (length (w f)) in
  if raw_clash N (shape (C' self)) (shape (G' self))
  then Y' self = Raise ValueError
  else exists v, Y' self = Ok (Vec v) /\
         Some (length v) = raw_shape N (shape (C' self)) (shape (G' self)).
Proof.
  intros Hf N.
  pose proof (raw_cases f (C' self) (G' self)) as H. cbv zeta in H.
  fold N in H. unfold Y', Y'_raw.
  rewrite (frequency_w_Some _ _ Hf), bind_Ok.
  destruct (raw_clash _ _ _).
  - by rewrite H.
  - destruct H as (v & -> & Hl). exists (nudge <$> v).
    split; [reflexivity|]. by rewrite length_fmap.
Qed.

(** The DC scenario of the specification: with [R = 0] the sample of [Z]
    at [w = 0] is [1e-12 j]. *)
Example dc_sample_is_nudged :
  exists z1, Z' dc_mode = Ok (Vec [mkC 0 1e-12; z1]).
Proof.
  eexists. unfold Z', Z'_raw, dc_mode. simpl. do 3 f_equal.
  unfold nudge. simpl.
  destruct (Req_dec_T _ _) as [_|NE].
  - apply complex_eq; simpl; unfold guard_eps; lra.
  - exfalso. apply NE. lra.
Qed.

(** C8.  Construction stores the parameters as given: an omitted
    parameter takes its default ([C = 90e-12], [L = 280e-9], [R = 0],
    [G = 0]) and a supplied one is kept as it is, scalar or array, without
    broadcasting or validation; a scalar is spread over the grid only when
    [Z] and [Y] are derived, which are arrays of the grid's length. *)
Theorem construction_stores_parameters
    (freq : option Frequency) (port override alias C L R G : option numlike) :
  let m := __init__ freq port override alias C L R G in
  C' m = default (Scalar (RtoC 90e-12)) C /\
  L' m = default (Scalar (RtoC 280e-9)) L /\
  R' m = default (Scalar (RtoC 0)) R /\
  G' m = default (Scalar (RtoC 0)) G /\
  forall f, frequency (base m) = Some f ->
    shape (C' m) = None -> shape (L' m) = None ->
    shape (R' m) = None -> shape (G' m) = None ->
    exists zs ys, Z' m = Ok (Vec zs) /\ Y' m = Ok (Vec ys) /\
      length zs = length (w f) /\ length ys = length (w f).
Proof.
  intros m. repeat split; try reflexivity.
  intros f Hf HC HL HR HG.
  pose proof (Z'_cases m f Hf) as HZ.
  pose proof (Y'_cases m f Hf) as HY.
  cbv zeta in HZ, HY. rewrite HL, HR in HZ. rewrite HC, HG in HY.
  simpl in HZ, HY.
  destruct HZ as (zs & HZ & Hlz), HY as (ys & HY & Hly).
  exists zs, ys. repeat split; congruence.
Qed.

(** C8 at the default construction on the grid [0, 1]. *)
Lemma construction_stores_parameters_witness :
  R' dc_mode = Scalar (RtoC 0) /\
  exists zs ys, Z' dc_mode = Ok (Vec zs) /\ Y' dc_mode = Ok (Vec ys) /\
    length zs = 2%nat /\ length ys = 2%nat.
Proof.
  destruct (construction_stores_parameters (Some grid01) None None None
              None None None None) as (_ & _ & HR & _ & H).
  split; [exact HR|].
  exact (H grid01 eq_refl eq_refl eq_refl eq_refl eq_refl).
Defined.

(** ** Where errors surface *)

Lemma no_grid self :
  frequency (base self) = None ->
  Z' self = Raise AttributeError /\ Y' self = Raise AttributeError /\
  z0_characteristic self = Raise AttributeError /\
  gamma self = Raise AttributeError.
Proof.
  intros Hf.
  assert (HZ : Z' self = Raise AttributeError).
  { unfold Z', Z'_raw. by rewrite (frequency_w_None _ Hf). }
  assert (HY : Y' self = Raise AttributeError).
  { unfold Y', Y'_raw. by rewrite (frequency_w_None _ Hf). }
  unfold z0_characteristic, gamma. rewrite HZ. auto.
Qed.

(** [sqrt(Z op Y)]: when it raises, and the length of its result. *)
Lemma wave_cases (op : complex -> complex -> complex) self f :
  frequency (base self) = Some f ->
  let N := Some (length (w f)) in
  let sz := raw_shape N (shape (L' self)) (shape (R' self)) in
  let sy := raw_shape N (shape (C' self)) (shape (G' self)) in
  let r := (Z ← Z' self; Y ← Y' self; q ← broadcast2 op Z Y;
            Ok (np_sqrt q)) in
  if raw_clash N (shape (L' self)) (shape (R' self))
     || raw_clash N (shape (C' self)) (shape (G' self))
     || clash sz sy
  then r = Raise ValueError
  else exists v, r = Ok (Vec v) /\ Some (length v) = join_shape sz sy.
Proof.
  intros Hf N sz sy r. subst r.
  pose proof (Z'_cases self f Hf) as HZ. pose proof (Y'_cases self f Hf) as HY.
  cbv zeta in HZ, HY. fold N in HZ, HY. fold sz in HZ. fold sy in HY.
  destruct (raw_clash N (shape (L' self)) (shape (R' self))).
  { by rewrite HZ. }
  destruct HZ as (zs & -> & Hzs). rewrite bind_Ok. cbn [orb].
  destruct (raw_clash N (shape (C' self)) (shape (G' self))).
  { by rewrite HY. }
  destruct HY as (ys & -> & Hys). rewrite bind_Ok. cbn [orb].
  rewrite <- Hzs, <- Hys.
  change (Some (length zs)) with (shape (Vec zs)).
  change (Some (length ys)) with (shape (Vec ys)).
  destruct (clash (shape (Vec zs)) (shape (Vec ys))) eqn:E.
  - by rewrite broadcast2_clash.
  - destruct (broadcast2_fits op (Vec zs) (Vec ys) E) as (q & -> & Hq).
    rewrite bind_Ok. destruct q as [c|v]; [discriminate|].
    exists (csqrt <$> v). split; [reflexivity|].
    rewrite length_fmap. exact Hq.
Qed.

Lemma Raise_iff {A} (r : result A) (c : bool) :
  (if c then r = Raise ValueError else exists v, r = Ok v) ->
  (r = Raise ValueError <-> c = true).
Proof.
  destruct c; intros H.
  - tauto.
  - destruct H as [v ->]. split; discriminate.
Qed.

(** C7, amended.  Construction validates nothing and always yields a
    mode.  On a grid of [N] samples, [Z] raises the shape error exactly
    when two of the shapes of the grid, [L] and [R] clash, that is, both
    are arrays, their lengths differ and neither length is one; [Y]
    likewise with [C] and [G]; [z0_characteristic] and [gamma] raise it
    exactly when [Z] does, [Y] does, or the shapes of [Z] and [Y] clash.
    Without a grid, each of [Z], [Y], [z0_characteristic] and [gamma]
    raises [AttributeError] on access. *)
Theorem errors_surface_at_derivation
    (freq : option Frequency) (port override alias C L R G : option numlike) :
  let m := __init__ freq port override alias C L R G in
  match freq with
  | None =>
      Z' m = Raise AttributeError /\ Y' m = Raise AttributeError /\
      z0_characteristic m = Raise AttributeError /\
      gamma m = Raise AttributeError
  | Some f =>
      let N := Some (length (w f)) in
      let zc := raw_clash N (shape (L' m)) (shape (R' m)) in
      let yc := raw_clash N (shape (C' m)) (shape (G' m)) in
      let zyc := clash (raw_shape N (shape (L' m)) (shape (R' m)))
                       (raw_shape N (shape (C' m)) (shape (G' m))) in
      (Z' m = Raise ValueError <-> zc = true) /\
      (Y' m = Raise ValueError <-> yc = true) /\
      (z0_characteristic m = Raise ValueError <-> zc || yc || zyc = true) /\
      (gamma m = Raise ValueError <-> zc || yc || zyc = true)
  end.
Proof.
  intros m. destruct freq as [f|].
  - intros N zc yc zyc.
    assert (Hf : frequency (base m) = Some f) by reflexivity.
    split; [|split; [|split]]; apply Raise_iff.
    + pose proof (Z'_cases m f Hf) as H. cbv zeta in H. fold N zc in H.
      destruct zc; [done|]. destruct H as (v & -> & _). eauto.
    + pose proof (Y'_cases m f Hf) as H. cbv zeta in H. fold N yc in H.
      destruct yc; [done|]. destruct H as (v & -> & _). eauto.
    + pose proof (wave_cases Cdiv m f Hf) as H. cbv zeta in H.
      fold N zc yc zyc in H. unfold z0_characteristic, np_div.
      destruct (zc || yc || zyc); [done|]. destruct H as (v & -> & _). eauto.
    + pose proof (wave_cases Cmul m f Hf) as H. cbv zeta in H.
      fold N zc yc zyc in H. unfold gamma, np_mul.
      destruct (zc || yc || zyc); [done|]. destruct H as (v & -> & _). eauto.
  - by apply no_grid.
Qed.

(** C7 as worded fails: on a grid of three samples a resistance given as
    an array of length one mismatches the grid, yet neither [Z] nor [Y]
    raises; the array is stretched. *)
Lemma length_one_vector_is_stretched : ~ deferred_errors_claim.
Proof.
  intros H.
  specialize (H (Some grid123) None None None
                None None (Some (Vec [RtoC 1])) None).
  cbv zeta in H.
  destruct H as [H|H].
  - exists 1%nat. split; [|simpl; lia]. unfold param_shapes. simpl. set_solver.
  - discriminate H.
  - discriminate H.
Qed.

(** ** Rendering *)

Section RenderingFacts.
Variable str_float : R -> string.
Variable str_int : nat -> string.
Variable fmt_2f : complex -> string.

Lemma render_header_ok self f :
  frequency (base self) = Some f -> f_scaled f <> [] ->
  exists h, render_header str_float str_int self = Ok h.
Proof.
  intros Hf Hs. unfold render_header. rewrite Hf, bind_Ok.
  unfold first_scaled, last_scaled.
  destruct (f_scaled f) as [|x l] eqn:E; [done|].
  rewrite bind_Ok.
  destruct (last (x :: l)) eqn:El.
  - rewrite bind_Ok. eauto.
  - apply last_None in El. discriminate.
Qed.

Lemma render_params_vec mark self :
  is_vec (L' self) \/ is_vec (C' self) \/
  is_vec (R' self) \/ is_vec (G' self) ->
  render_params fmt_2f mark self = Raise TypeError.
Proof.
  unfold render_params, format_2f.
  destruct (L' self), (C' self), (R' self), (G' self); simpl; tauto.
Qed.

Lemma render_vec mark self f :
  frequency (base self) = Some f -> f_scaled f <> [] ->
  is_vec (L' self) \/ is_vec (C' self) \/
  is_vec (R' self) \/ is_vec (G' self) ->
  render str_float str_int fmt_2f mark self = Raise TypeError.
Proof.
  intros Hf Hs Hv. unfold render.
  destruct (render_header_ok self f Hf Hs) as [h ->].
  rewrite bind_Ok. by rewrite render_params_vec.
Qed.

(** C6.  What the code does where the claim expects the fall-back form:
    for a mode on a non-empty grid with at least one array-valued
    parameter, the scalar form raises [TypeError], the handler formats
    the same attributes with the same specification, raises [TypeError]
    again, and [__str__] ends with that exception instead of a text. *)
Theorem str_of_vector_parameters_raises self f :
  frequency (base self) = Some f -> f_scaled f <> [] ->
  is_vec (L' self) \/ is_vec (C' self) \/
  is_vec (R' self) \/ is_vec (G' self) ->
  __str__ str_float str_int fmt_2f self = Raise TypeError.
Proof.
  intros Hf Hs Hv. unfold __str__.
  rewrite !(render_vec _ self f Hf Hs Hv). reflexivity.
Qed.

(** With four scalars the first form is the result. *)
Lemma str_of_scalar_parameters self f l c r g :
  frequency (base self) = Some f -> f_scaled f <> [] ->
  L' self = Scalar l -> C' self = Scalar c ->
  R' self = Scalar r -> G' self = Scalar g ->
  exists h, render_header str_float str_int self = Ok h /\
    __str__ str_float str_int fmt_2f self =
      Ok (h +:+ String (Ascii.ascii_of_nat 10)
            ("L'= " +:+ fmt_2f l +:+ ", C'= " +:+ fmt_2f c +:+ ",R'= "
               +:+ fmt_2f r +:+ ", G'= " +:+ fmt_2f g +:+ ", ")).
Proof.
  intros Hf Hs HL HC HR HG.
  destruct (render_header_ok self f Hf Hs) as [h Hh].
  exists h. split; [assumption|].
  unfold __str__, render, render_params. rewrite Hh, HL, HC, HR, HG.
  reflexivity.
Qed.
End RenderingFacts.

(** C6 at a line of three samples whose inductance is an array. *)
Lemma str_of_vector_parameters_raises_witness :
  __str__ any_text any_text any_text vector_L_mode = Raise TypeError.
Proof.
  apply (str_of_vector_parameters_raises any_text any_text any_text
           vector_L_mode grid123).
  - reflexivity.
  - discriminate.
  - left. exact I.
Defined.

(** ** Sample-wise reading of the derivations *)

Section Spread.
Context {T : Type} (ts : list T).

Lemma spread_vec s : spread ts s (Vec (s <$> ts)).
Proof. by left. Qed.

Lemma spread_scalar c : spread ts (fun _ => c) (Scalar c).
Proof. right. eauto. Qed.

Lemma zip_with_same (f : complex -> complex -> complex) (g h : T -> complex) :
  zip_with f (g <$> ts) (h <$> ts) = (fun t => f (g t) (h t)) <$> ts.
Proof. by rewrite zip_with_fmap_l, zip_with_fmap_r, zip_with_diag. Qed.

Lemma broadcast2_spread_r f sv sx x :
  spread ts sx x ->
  broadcast2 f (Vec (sv <$> ts)) x
  = Ok (Vec ((fun t => f (sv t) (sx t)) <$> ts)).
Proof.
  intros [->|(c & -> & Hc)].
  - rewrite broadcast2_same_length by (by rewrite !length_fmap).
    by rewrite zip_with_same.
  - simpl. rewrite <- list_fmap_compose. do 2 f_equal.
    apply list_fmap_ext. intros _ t _. simpl. by rewrite Hc.
Qed.

Lemma broadcast2_spread_l f sv sx x :
  spread ts sx x ->
  broadcast2 f x (Vec (sv <$> ts))
  = Ok (Vec ((fun t => f (sx t) (sv t)) <$> ts)).
Proof.
  intros [->|(c & -> & Hc)].
  - rewrite broadcast2_same_length by (by rewrite !length_fmap).
    by rewrite zip_with_same.
  - simpl. rewrite <- list_fmap_compose. do 2 f_equal.
    apply list_fmap_ext. intros _ t _. simpl. by rewrite Hc.
Qed.

Variables (self : Mode) (f : Frequency) (om : T -> R).
Hypothesis Hf : frequency (base self) = Some f.
Hypothesis Hw : w f = om <$> ts.

Lemma jw_spread :
  np_mul (Scalar Ci) (w_array f)
  = Ok (Vec ((fun t => Cmul Ci (RtoC (om t))) <$> ts)).
Proof. rewrite np_mul_j_w, Hw, <- list_fmap_compose. reflexivity. Qed.

Lemma Z'_spread rr ll :
  spread ts rr (R' self) -> spread ts ll (L' self) ->
  Z' self = Ok (Vec ((fun t => Z'_sample (om t) (rr t) (ll t)) <$> ts)).
Proof.
  intros HR HL. unfold Z', Z'_raw.
  rewrite (frequency_w_Some _ _ Hf), bind_Ok, jw_spread, bind_Ok.
  unfold np_mul, np_add.
  rewrite (broadcast2_spread_r _ _ _ _ HL), bind_Ok.
  rewrite (broadcast2_spread_l _ _ _ _ HR), bind_Ok.
  simpl. by rewrite <- list_fmap_compose.
Qed.

Lemma Y'_spread gg cc :
  spread ts gg (G' self) -> spread ts cc (C' self) ->
  Y' self = Ok (Vec ((fun t => Z'_sample (om t) (gg t) (cc t)) <$> ts)).
Proof.
  intros HG HC. unfold Y', Y'_raw.
  rewrite (frequency_w_Some _ _ Hf), bind_Ok, jw_spread, bind_Ok.
  unfold np_mul, np_add.
  rewrite (broadcast2_spread_r _ _ _ _ HC), bind_Ok.
  rewrite (broadcast2_spread_l _ _ _ _ HG), bind_Ok.
  simpl. by rewrite <- list_fmap_compose.
Qed.

Lemma gamma_spread rr ll gg cc :
  spread ts rr (R' self) -> spread ts ll (L' self) ->
  spread ts gg (G' self) -> spread ts cc (C' self) ->
  gamma self = Ok (Vec ((fun t =>
    csqrt (Cmul (Z'_sample (om t) (rr t) (ll t))
                (Z'_sample (om t) (gg t) (cc t)))) <$> ts)).
Proof.
  intros HR HL HG HC. unfold gamma.
  rewrite (Z'_spread _ _ HR HL), (Y'_spread _ _ HG HC), !bind_Ok.
  unfold np_mul.
  rewrite (broadcast2_spread_r _ _ _ _ (spread_vec _)), bind_Ok.
  simpl. by rewrite <- list_fmap_compose.
Qed.

Lemma z0_characteristic_spread rr ll gg cc :
  spread ts rr (R' self) -> spread ts ll (L' self) ->
  spread ts gg (G' self) -> spread ts cc (C' self) ->
  z0_characteristic self = Ok (Vec ((fun t =>
    csqrt (Cdiv (Z'_sample (om t) (rr t) (ll t))
                (Z'_sample (om t) (gg t) (cc t)))) <$> ts)).
Proof.
  intros HR HL HG HC. unfold z0_characteristic.
  rewrite (Z'_spread _ _ HR HL), (Y'_spread _ _ HG HC), !bind_Ok.
  unfold np_div.
  rewrite (broadcast2_spread_r _ _ _ _ (spread_vec _)), bind_Ok.
  simpl. by rewrite <- list_fmap_compose.
Qed.
End Spread.

Lemma from_media_spread {T} (ts : list T) (f : Frequency) (om : T -> R)
    (gg zz : T -> complex) (port : option numlike) :
  w f = om <$> ts ->
  from_media (mkMedia (Some f) (Vec (gg <$> ts)) (Vec (zz <$> ts)) port)
  = Ok (mkMode (mkMediaBase (Some f) port None)
         (Vec ((fun t => RtoC (im (Cdiv (gg t) (zz t)) / om t)) <$> ts))
         (Vec ((fun t => RtoC (im (Cmul (gg t) (zz t)) / om t)) <$> ts))
         (Vec ((fun t => RtoC (re (Cmul (gg t) (zz t)))) <$> ts))
         (Vec ((fun t => RtoC (re (Cdiv (gg t) (zz t)))) <$> ts))).
Proof.
  intros Hw. unfold from_media.
  cbn [media_frequency media_gamma media_z0 media_z0_port].
  rewrite bind_Ok. unfold np_div, np_mul, w_array. rewrite Hw.
  rewrite !(broadcast2_spread_r _ _ _ _ _ (spread_vec _ _)), !bind_Ok.
  unfold np_imag, np_real, map1. rewrite <- !list_fmap_compose.
  rewrite !(broadcast2_spread_r _ _ _ _ _ (spread_vec _ _)), !bind_Ok.
  unfold __init__, Media_init. unfold default, from_option, Datatypes.id.
  do 2 f_equal; f_equal; apply list_fmap_ext; intros _ t _; simpl;
    by rewrite ?Cdiv_real.
Qed.

(** Arrays and scalars as maps over the sample indices. *)
Lemma list_as_seq {A} (d : A) (l : list A) :
  l = (fun k => default d (l !! k)) <$> seq 0 (length l).
Proof.
  apply list_eq. intros i. rewrite list_lookup_fmap.
  destruct (decide (i < length l)%nat) as [Hlt|Hge].
  - rewrite lookup_seq_lt by assumption. simpl.
    destruct (lookup_lt_is_Some_2 l i Hlt) as [x Hx]. by rewrite Hx.
  - rewrite lookup_seq_ge by lia. simpl. apply lookup_ge_None. lia.
Qed.

Lemma as_spread N x :
  well_shaped N x ->
  spread (seq 0 N) (fun k => default (mkC 0 0) (sample_at x k)) x.
Proof.
  destruct x as [c|l]; intros [H|H]; simpl in H; try discriminate.
  - right. exists c. split; [done|]. done.
  - left. injection H as <-. f_equal. apply list_as_seq.
Qed.

Lemma lookup_fmap_seq {A} (F : nat -> A) N k :
  (k < N)%nat -> (F <$> seq 0 N) !! k = Some (F k).
Proof. intros H. by rewrite list_lookup_fmap, lookup_seq_lt. Qed.

(** Every derived quantity of a mode whose parameters fit the grid, as a
    map over the sample indices. *)
Lemma derived_over_indices self f :
  frequency (base self) = Some f ->
  parameters_fit (length (w f)) self ->
  let N := length (w f) in
  let om := fun k => default 0 (w f !! k) in
  let rr := fun k => default (mkC 0 0) (sample_at (R' self) k) in
  let ll := fun k => default (mkC 0 0) (sample_at (L' self) k) in
  let gg := fun k => default (mkC 0 0) (sample_at (G' self) k) in
  let cc := fun k => default (mkC 0 0) (sample_at (C' self) k) in
  Z' self = Ok (Vec ((fun k => Z'_sample (om k) (rr k) (ll k)) <$> seq 0 N)) /\
  Y' self = Ok (Vec ((fun k => Z'_sample (om k) (gg k) (cc k)) <$> seq 0 N)) /\
  gamma self = Ok (Vec ((fun k =>
    csqrt (Cmul (Z'_sample (om k) (rr k) (ll k))
                (Z'_sample (om k) (gg k) (cc k)))) <$> seq 0 N)) /\
  z0_characteristic self = Ok (Vec ((fun k =>
    csqrt (Cdiv (Z'_sample (om k) (rr k) (ll k))
                (Z'_sample (om k) (gg k) (cc k)))) <$> seq 0 N)).
Proof.
  intros Hf (HR & HL & HG & HC) N om rr ll gg cc.
  assert (Hw : w f = om <$> seq 0 N) by apply (list_as_seq 0).
  apply as_spread in HR, HL, HG, HC.
  split; [exact (Z'_spread (seq 0 N) self f om Hf Hw rr ll HR HL)|].
  split; [exact (Y'_spread (seq 0 N) self f om Hf Hw gg cc HG HC)|].
  split.
  - exact (gamma_spread (seq 0 N) self f om Hf Hw rr ll gg cc HR HL HG HC).
  - exact (z0_characteristic_spread (seq 0 N) self f om Hf Hw
             rr ll gg cc HR HL HG HC).
Qed.

Lemma sample_at_fit N x k :
  well_shaped N x -> (k < N)%nat -> exists c, sample_at x k = Some c.
Proof.
  destruct x as [c|l]; intros [H|H] Hk; simpl in *; try discriminate; eauto.
  injection H as <-. by apply lookup_lt_is_Some_2.
Qed.

(** ** The degeneracy guard at work *)

(** The sum [a + 1j*w*b], sample by sample. *)
Lemma raw_sum_spread {T} (ts : list T) (f : Frequency) (om : T -> R)
    (a b : numlike) aa bb :
  w f = om <$> ts ->
  spread ts aa a -> spread ts bb b ->
  (jw ← np_mul (Scalar Ci) (w_array f); jwb ← np_mul jw b; np_add a jwb)
  = Ok (Vec ((fun t => Cadd (aa t) (Cmul (Cmul Ci (RtoC (om t))) (bb t)))
               <$> ts)).
Proof.
  intros Hw Ha Hb.
  rewrite np_mul_j_w, Hw, <- list_fmap_compose, bind_Ok.
  unfold np_mul, np_add.
  rewrite (broadcast2_spread_r _ _ _ _ _ Hb), bind_Ok.
  rewrite (broadcast2_spread_l _ _ _ _ _ Ha).
  reflexivity.
Qed.

Lemma sum_guard_applied f (a b : numlike) (raw out : result numlike) :
  well_shaped (length (w f)) a -> well_shaped (length (w f)) b ->
  raw = (jw ← np_mul (Scalar Ci) (w_array f);
         jwb ← np_mul jw b; np_add a jwb) ->
  out = (x ← raw; guard x) ->
  guard_applied f a b raw out.
Proof.
  intros Ha Hb Hraw Hout.
  assert (Hbk : forall k, (k < length (w f))%nat ->
            exists y, sample_at b k = Some y)
    by (intros k; by apply sample_at_fit).
  rewrite (raw_sum_spread (seq 0 (length (w f))) f _ a b _ _
             (list_as_seq 0 (w f)) (as_spread _ _ Ha) (as_spread _ _ Hb))
    in Hraw.
  rewrite Hraw, bind_Ok in Hout. cbn [guard] in Hout.
  set (F := fun k : nat => _) in *.
  assert (Hrs : forall k omega x y,
    w f !! k = Some omega -> sample_at a k = Some x -> sample_at b k = Some y ->
    (F <$> seq 0 (length (w f))) !! k
    = Some (Cadd x (Cmul (Cmul Ci (RtoC omega)) y))).
  { intros k omega x y Hw Hx Hy.
    assert (Hk : (k < length (w f))%nat) by (by eapply lookup_lt_Some).
    rewrite lookup_fmap_seq by assumption. subst F. cbv beta.
    by rewrite Hw, Hx, Hy. }
  exists (F <$> seq 0 (length (w f))), (nudge <$> (F <$> seq 0 (length (w f)))).
  split; [exact Hraw|]. split; [exact Hout|].
  rewrite !length_fmap, length_seq.
  split; [reflexivity|]. split; [reflexivity|].
  split; [exact Hrs|].
  split; [apply Forall2_nudge|]. split; [apply Forall_nudge|].
  intros k x Hw Hx Hix.
  assert (Hk : (k < length (w f))%nat) by (by eapply lookup_lt_Some).
  destruct (Hbk k Hk) as [y Hy].
  rewrite list_lookup_fmap, (Hrs k 0 x y Hw Hx Hy).
  cbn [fmap option_fmap option_map].
  f_equal. unfold nudge.
  destruct (Req_dec_T _ _) as [_|NE].
  - apply complex_eq; simpl; unfold guard_eps; lra.
  - exfalso. apply NE. simpl. lra.
Qed.

(** C4.  Degeneracy guard.  Whenever [Z] (respectively [Y]) returns, it
    returns an array obtained from [R + 1j*w*L] (respectively
    [G + 1j*w*C]) sample by sample, a sample whose imaginary part is
    exactly zero being increased by [1e-12 j] and every other sample being
    kept, and no sample of the result has imaginary part zero.  And on a
    grid of [N] samples, with [R] and [L] (respectively [G] and [C]) each
    a scalar or an array of length [N], [Z] (respectively [Y]) does
    return: the sum and the result are arrays of length [N], the sample of
    the sum at index [k] is [R[k] + 1j*w[k]*L[k]], the result is the sum
    so guarded, and at a DC sample with a real [R[k]] the result is
    [R[k] + 1e-12 j]. *)
Theorem degeneracy_guard (self : Mode) :
  (forall x, Z' self = Ok x ->
     exists raw zs, Z'_raw self = Ok (Vec raw) /\ x = Vec zs /\
       Forall2 guarded raw zs /\ Forall (fun z => im z <> 0) zs) /\
  (forall x, Y' self = Ok x ->
     exists raw ys, Y'_raw self = Ok (Vec raw) /\ x = Vec ys /\
       Forall2 guarded raw ys /\ Forall (fun y => im y <> 0) ys) /\
  (forall f, frequency (base self) = Some f ->
     (well_shaped (length (w f)) (R' self) ->
      well_shaped (length (w f)) (L' self) ->
      guard_applied f (R' self) (L' self) (Z'_raw self) (Z' self)) /\
     (well_shaped (length (w f)) (G' self) ->
      well_shaped (length (w f)) (C' self) ->
      guard_applied f (G' self) (C' self) (Y'_raw self) (Y' self))).
Proof.
  split; [|split].
  - intros x Hx. destruct (Z'_inv _ _ Hx) as (raw & Hr & ->).
    exists raw, (nudge <$> raw). auto using Forall2_nudge, Forall_nudge.
  - intros x Hx. destruct (Y'_inv _ _ Hx) as (raw & Hr & ->).
    exists raw, (nudge <$> raw). auto using Forall2_nudge, Forall_nudge.
  - intros f Hf. split; intros Ha Hb.
    + apply sum_guard_applied; try assumption; [|reflexivity].
      unfold Z'_raw. by rewrite (frequency_w_Some _ _ Hf), bind_Ok.
    + apply sum_guard_applied; try assumption; [|reflexivity].
      unfold Y'_raw. by rewrite (frequency_w_Some _ _ Hf), bind_Ok.
Qed.

(** C4 at the default line on the grid [0, 1]: [Z] and [Y] both return
    arrays of two samples; at the DC sample the sums are [0] and the
    results are [1e-12 j]. *)
Lemma degeneracy_guard_witness :
  exists rz zs ry ys,
    Z'_raw dc_mode = Ok (Vec rz) /\ Z' dc_mode = Ok (Vec zs) /\
    Y'_raw dc_mode = Ok (Vec ry) /\ Y' dc_mode = Ok (Vec ys) /\
    length zs = 2%nat /\ length ys = 2%nat /\
    rz !! 0%nat
    = Some (Cadd (RtoC 0) (Cmul (Cmul Ci (RtoC 0)) (RtoC 280e-9))) /\
    zs !! 0%nat = Some (mkC 0 1e-12) /\
    ry !! 0%nat
    = Some (Cadd (RtoC 0) (Cmul (Cmul Ci (RtoC 0)) (RtoC 90e-12))) /\
    ys !! 0%nat = Some (mkC 0 1e-12) /\
    Forall (fun z => im z <> 0) zs /\ Forall (fun y => im y <> 0) ys.
Proof.
  destruct (degeneracy_guard dc_mode) as (_ & _ & H).
  destruct (H grid01 eq_refl) as [HZ HY].
  destruct HZ as (rz & zs & Z1 & Z2 & _ & Z4 & Z5 & _ & Z7 & Z8);
    [left; reflexivity..|].
  destruct HY as (ry & ys & Y1 & Y2 & _ & Y4 & Y5 & _ & Y7 & Y8);
    [left; reflexivity..|].
  exists rz, zs, ry, ys.
  split; [exact Z1|]. split; [exact Z2|].
  split; [exact Y1|]. split; [exact Y2|].
  split; [exact Z4|]. split; [exact Y4|].
  split; [exact (Z5 0%nat 0 _ _ eq_refl eq_refl eq_refl)|].
  split; [exact (Z8 0%nat (RtoC 0) eq_refl eq_refl eq_refl)|].
  split; [exact (Y5 0%nat 0 _ _ eq_refl eq_refl eq_refl)|].
  split; [exact (Y8 0%nat (RtoC 0) eq_refl eq_refl eq_refl)|].
  split; assumption.
Defined.

Lemma Z'_sample_real omega r l :
  omega * l <> 0 -> Z'_sample omega (RtoC r) (RtoC l) = mkC r (omega * l).
Proof.
  intros H. unfold Z'_sample.
  replace (Cadd _ _) with (mkC r (omega * l))
    by (apply complex_eq; simpl; ring).
  by apply nudge_id.
Qed.


(** ** The inverse constructor *)

(** C3.  Inverse-construction formulas: from a media exposing a grid of
    [N] non-zero angular frequencies and [N]-vectors [gamma] and [z0], the
    latter nowhere zero, [from_media] returns a mode on the same grid,
    with the source's port impedance, and with four parameters that are
    [N]-vectors whose samples are [G = Re(gamma/z0)],
    [C = Im(gamma/z0)/w], [R = Re(gamma*z0)] and [L = Im(gamma*z0)/w].
    (The formulas divide by [z0] and by [w]: at a sample where one of
    them is zero the code produces [inf] or [nan], of which the statement
    says nothing.) *)
Theorem from_media_formulas (my_media : Media) (f : Frequency)
    (gs zs : list complex) :
  media_frequency my_media = Some f ->
  media_gamma my_media = Vec gs ->
  media_z0 my_media = Vec zs ->
  length gs = length (w f) ->
  length zs = length (w f) ->
  Forall (fun omega => omega <> 0) (w f) ->
  Forall nonzero zs ->
  exists (m : Mode) (Gs Cs Rs Ls : list complex),
    from_media my_media = Ok m /\
    z0_port (base m) = media_z0_port my_media /\
    frequency (base m) = Some f /\
    G' m = Vec Gs /\ C' m = Vec Cs /\ R' m = Vec Rs /\ L' m = Vec Ls /\
    length Gs = length (w f) /\ length Cs = length (w f) /\
    length Rs = length (w f) /\ length Ls = length (w f) /\
    forall k omega g z,
      w f !! k = Some omega -> gs !! k = Some g -> zs !! k = Some z ->
      Gs !! k = Some (RtoC (re (Cdiv g z))) /\
      Cs !! k = Some (RtoC (im (Cdiv g z) / omega)) /\
      Rs !! k = Some (RtoC (re (Cmul g z))) /\
      Ls !! k = Some (RtoC (im (Cmul g z) / omega)).
Proof.
  intros Hf Hg Hz Lg Lz _ _.
  unfold from_media. rewrite Hf, Hg, Hz, bind_Ok.
  unfold np_div at 3, np_mul.
  rewrite !broadcast2_same_length, !bind_Ok by congruence.
  unfold np_imag, np_real, map1, w_array, np_div.
  rewrite !broadcast2_same_length, !bind_Ok
    by (rewrite !length_fmap, length_zip_with; lia).
  eexists _, _, _, _, _. split; [reflexivity|].
  cbn [__init__ base Media_init z0_port frequency G' C' R' L'
       default from_option].
  split; [reflexivity|]. split; [reflexivity|].
  split; [reflexivity|]. split; [reflexivity|].
  split; [reflexivity|]. split; [reflexivity|].
  rewrite !length_zip_with, !length_fmap, !length_zip_with.
  repeat (split; [lia|]).
  intros k omega g z Hw Hgk Hzk.
  rewrite !lookup_zip_with, !list_lookup_fmap, !lookup_zip_with, Hw, Hgk, Hzk.
  simpl. rewrite !Cdiv_real. auto.
Qed.

(** C3 at one sample: [w = 2], [gamma = 1 + j], [z0 = 1]. *)
Lemma from_media_formulas_witness :
  exists (m : Mode) (Gs Cs Rs Ls : list complex),
    from_media media1 = Ok m /\
    z0_port (base m) = None /\
    G' m = Vec Gs /\ C' m = Vec Cs /\ R' m = Vec Rs /\ L' m = Vec Ls /\
    Gs !! 0%nat = Some (RtoC (re (Cdiv (mkC 1 1) (mkC 1 0)))) /\
    Cs !! 0%nat = Some (RtoC (im (Cdiv (mkC 1 1) (mkC 1 0)) / 2)) /\
    Rs !! 0%nat = Some (RtoC (re (Cmul (mkC 1 1) (mkC 1 0)))) /\
    Ls !! 0%nat = Some (RtoC (im (Cmul (mkC 1 1) (mkC 1 0)) / 2)).
Proof.
  destruct (from_media_formulas media1 _ _ _
              eq_refl eq_refl eq_refl eq_refl eq_refl)
    as (m & Gs & Cs & Rs & Ls & H1 & H2 & H3 & H4 & H5 & H6 & H7
        & _ & _ & _ & _ & H).
  - repeat constructor. simpl. lra.
  - repeat constructor. intros [=]. lra.
  - destruct (H 0%nat 2 (mkC 1 1) (mkC 1 0) eq_refl eq_refl eq_refl)
      as (A & B & C & D).
    exists m, Gs, Cs, Rs, Ls. auto 12.
Defined.

(** ** The wave descriptors *)






(** ** Signed zeros: the lower lip of the branch cut

    The layer with signed zeros stands for the same numbers as the exact
    layer in [Z], [Y] and the product [Z*Y]; its square root is the one of
    the exact layer unless the radicand has imaginary part [-0.0]. *)

Lemma exact_cadd_ieee a b : exact (cadd_ieee a b) = Cadd (exact a) (exact b).
Proof. reflexivity. Qed.

Lemma exact_cmul_ieee a b : exact (cmul_ieee a b) = Cmul (exact a) (exact b).
Proof. apply complex_eq; simpl; ring. Qed.

Lemma exact_creal x : exact (creal x) = RtoC x.
Proof. reflexivity. Qed.

Lemma exact_j_ieee : exact j_ieee = Ci.
Proof. reflexivity. Qed.

Lemma exact_nudge_ieee z : exact (nudge_ieee z) = nudge (exact z).
Proof.
  unfold nudge_ieee, nudge. cbn [exact im].
  destruct (Req_dec_T _ _); [|reflexivity].
  by rewrite exact_cadd_ieee, exact_cmul_ieee.
Qed.

Lemma exact_Z_ieee omega r l :
  exact (Z_ieee omega r l) = Z'_sample omega (exact r) (exact l).
Proof.
  unfold Z_ieee, Z'_sample.
  by rewrite exact_nudge_ieee, exact_cadd_ieee, !exact_cmul_ieee.
Qed.

Lemma exact_Y_ieee omega g c :
  exact (Y_ieee omega g c) = Z'_sample omega (exact g) (exact c).
Proof. apply exact_Z_ieee. Qed.

Lemma negative_true x : x < 0 -> negative x = true.
Proof. unfold negative. destruct (Rlt_dec x 0); [done|lra]. Qed.

Lemma negative_false x : 0 <= x -> negative x = false.
Proof. unfold negative. destruct (Rlt_dec x 0); [lra|done]. Qed.

Lemma signbit_nonzero a : fval a <> 0 -> signbit a = negative (fval a).
Proof. unfold signbit. destruct (Req_dec_T _ _); done. Qed.

Lemma signbit_zero a : fval a = 0 -> signbit a = minus_zero a.
Proof. unfold signbit. destruct (Req_dec_T _ _); done. Qed.

(** The two square roots agree away from the lower lip of the cut, and
    are conjugate on it. *)
Lemma exact_csqrt_ieee z :
  exact (csqrt_ieee z)
  = if signbit (fim z) then
      (if Rlt_dec (fval (fim z)) 0 then csqrt (exact z)
       else Cconj (csqrt (exact z)))
    else csqrt (exact z).
Proof.
  unfold csqrt_ieee, exact, csqrt, Cconj. cbn [re im fval fre fim fl].
  unfold signbit, negative.
  destruct (Req_dec_T (fval (fim z)) 0) as [E|NE].
  - destruct (Rlt_dec (fval (fim z)) 0) as [Hlt|_]; [lra|].
    destruct (minus_zero (fim z)); apply complex_eq; simpl; ring.
  - destruct (Rlt_dec (fval (fim z)) 0); reflexivity.
Qed.

Lemma csqrt_ieee_off_lip z :
  (fval (fim z) = 0 -> minus_zero (fim z) = false) ->
  exact (csqrt_ieee z) = csqrt (exact z).
Proof.
  intros H. rewrite exact_csqrt_ieee.
  destruct (signbit (fim z)) eqn:S; [|reflexivity].
  destruct (Rlt_dec _ _) as [|Hge]; [reflexivity|].
  exfalso. unfold signbit in S.
  destruct (Req_dec_T _ _) as [E|NE].
  - rewrite (H E) in S. discriminate.
  - unfold negative in S. destruct (Rlt_dec _ _); [contradiction|discriminate].
Qed.

Lemma csqrt_ieee_on_zero_minus z :
  fval (fim z) = 0 -> minus_zero (fim z) = true ->
  exact (csqrt_ieee z) = Cconj (csqrt (exact z)).
Proof.
  intros E S. rewrite exact_csqrt_ieee, (signbit_zero _ E), S.
  destruct (Rlt_dec _ _); [lra|reflexivity].
Qed.

(** Either way the result is a square root with non-negative real part. *)
Lemma csqrt_ieee_root z :
  Cmul (exact (csqrt_ieee z)) (exact (csqrt_ieee z)) = exact z /\
  0 <= re (exact (csqrt_ieee z)).
Proof.
  rewrite exact_csqrt_ieee.
  pose proof (csqrt_sqr (exact z)) as S.
  destruct (csqrt_principal (exact z)) as [P _].
  destruct (signbit (fim z)) eqn:B; [|done].
  destruct (Rlt_dec _ _) as [|Hge]; [done|].
  assert (E : fval (fim z) = 0).
  { unfold signbit in B. destruct (Req_dec_T _ _) as [E|NE]; [done|].
    unfold negative in B.
    destruct (Rlt_dec _ _); [contradiction|discriminate]. }
  split; [|exact P].
  rewrite <- S at 3. unfold Cconj, Cmul. cbn [re im].
  apply complex_eq; cbn [re im]; [ring|].
  assert (I : im (Cmul (csqrt (exact z)) (csqrt (exact z))) = 0)
    by (rewrite S; exact E).
  unfold Cmul in I. cbn [re im] in I. lra.
Qed.


Lemma signbit_fl x : signbit (fl x) = negative x.
Proof.
  unfold signbit, fl. cbn [fval minus_zero].
  destruct (Req_dec_T x 0) as [->|]; [|done].
  symmetry. apply negative_false. lra.
Qed.

Lemma signbit_fadd_l a b :
  signbit a = false -> fval a = 0 -> fval b = 0 -> signbit (fadd a b) = false.
Proof.
  intros S Ea Eb. unfold signbit at 1, fadd. cbn [fval minus_zero].
  destruct (Req_dec_T _ _) as [_|NE]; [by rewrite S|lra].
Qed.

(** [Z] (and [Y]) for real parameters: the real part is the parameter,
    with a zero that is [+0.0]; the imaginary part is never zero. *)
Lemma Z_ieee_real omega r l :
  let Z := Z_ieee omega (creal r) (creal l) in
  exact Z = Z'_sample omega (RtoC r) (RtoC l) /\
  fval (fre Z) = r /\ signbit (fre Z) = negative r /\ fval (fim Z) <> 0.
Proof.
  intros Z. pose proof (exact_Z_ieee omega (creal r) (creal l)) as E.
  fold Z in E. rewrite !exact_creal in E.
  assert (Er : fval (fre Z) = r).
  { change (re (exact Z) = r). rewrite E. unfold Z'_sample, nudge.
    destruct (Req_dec_T _ _); simpl; ring. }
  split; [exact E|]. split; [exact Er|]. split.
  - destruct (Req_dec_T r 0) as [R0|NR].
    + rewrite (negative_false r) by lra.
      subst Z. unfold Z_ieee, nudge_ieee.
      set (jwl := cmul_ieee (cmul_ieee j_ieee (creal omega)) (creal l)).
      assert (Hj : fval (fre jwl) = 0) by (subst jwl; simpl; ring).
      assert (H0 : signbit (fre (cadd_ieee (creal r) jwl)) = false).
      { cbn [cadd_ieee fre creal]. apply signbit_fadd_l; [|done..].
        rewrite signbit_fl. apply negative_false. lra. }
      destruct (Req_dec_T _ _); [|exact H0].
      cbn [cadd_ieee fre]. apply signbit_fadd_l; [exact H0| |].
      * cbn [cadd_ieee fre creal fadd fval fl]. lra.
      * simpl. ring.
    + rewrite signbit_nonzero by (rewrite Er; exact NR). by rewrite Er.
  - change (im (exact Z) <> 0). rewrite E. apply nudge_im.
Qed.

Lemma signbit_fmul a b :
  signbit (fmul a b)
  = if Req_dec_T (fval a * fval b) 0 then xorb (signbit a) (signbit b)
    else negative (fval a * fval b).
Proof. reflexivity. Qed.

(** The product [Z*Y] for real parameters meets the lower lip of the cut
    exactly when [R = G = 0] and both [w*L] and [w*C] are negative. *)
Lemma product_on_lower_lip omega r l g c :
  let P := cmul_ieee (Z_ieee omega (creal r) (creal l))
                     (Y_ieee omega (creal g) (creal c)) in
  (fval (fim P) = 0 /\ minus_zero (fim P) = true) <->
  (r = 0 /\ g = 0 /\ omega * l < 0 /\ omega * c < 0).
Proof.
  intros P.
  destruct (Z_ieee_real omega r l) as (EZ & Za & Sa & Zb).
  destruct (Z_ieee_real omega g c) as (EY & Yc & Sc & Yd).
  change (Z_ieee omega (creal g) (creal c))
    with (Y_ieee omega (creal g) (creal c)) in *.
  set (Z := Z_ieee omega (creal r) (creal l)) in *.
  set (Y := Y_ieee omega (creal g) (creal c)) in *.
  assert (Hv : fval (fim P) = r * fval (fim Y) + fval (fim Z) * g).
  { subst P. cbn [cmul_ieee fim fadd fmul fval]. by rewrite Za, Yc. }
  assert (Hm : minus_zero (fim P)
               = signbit (fmul (fre Z) (fim Y))
                 && signbit (fmul (fim Z) (fre Y)))
    by reflexivity.
  assert (Hb : fval (fim Z) = im (Z'_sample omega (RtoC r) (RtoC l)))
    by (change (im (exact Z) = im (Z'_sample omega (RtoC r) (RtoC l)));
        by rewrite EZ).
  assert (Hd : fval (fim Y) = im (Z'_sample omega (RtoC g) (RtoC c)))
    by (change (im (exact Y) = im (Z'_sample omega (RtoC g) (RtoC c)));
        by rewrite EY).
  assert (Sb : signbit (fim Z) = negative (fval (fim Z)))
    by (by apply signbit_nonzero).
  assert (Sd : signbit (fim Y) = negative (fval (fim Y)))
    by (by apply signbit_nonzero).
  assert (Ib : forall w0 x y,
            im (Z'_sample w0 (RtoC x) (RtoC y)) < 0 <-> w0 * y < 0).
  { intros w0 x y. unfold Z'_sample, nudge.
    destruct (Req_dec_T _ _) as [E0|N0]; simpl in *; unfold guard_eps; lra. }
  rewrite Hm, !signbit_fmul, Za, Yc, Sa, Sc, Sb, Sd, Hv.
  set (b := fval (fim Z)) in *. set (d := fval (fim Y)) in *.
  split.
  - intros [H0 Hs]. apply andb_prop in Hs as [S1 S2].
    destruct (Req_dec_T (r * d) 0) as [E1|N1].
    + assert (Hr : r = 0) by (apply Rmult_integral in E1 as [?|?]; [done|lra]).
      assert (Hg : b * g = 0) by lra.
      assert (Hg0 : g = 0) by (apply Rmult_integral in Hg as [?|?]; [lra|done]).
      destruct (Req_dec_T (b * g) 0) as [_|?]; [|lra].
      rewrite (negative_false r) in S1 by lra.
      rewrite (negative_false g) in S2 by lra.
      simpl in S1. rewrite xorb_false_r in S2.
      unfold negative in S1, S2.
      destruct (Rlt_dec d 0) as [Hd0|]; [|discriminate].
      destruct (Rlt_dec b 0) as [Hb0|]; [|discriminate].
      rewrite Hb in Hb0. rewrite Hd in Hd0.
      apply Ib in Hb0. apply Ib in Hd0. auto.
    + unfold negative in S1. destruct (Rlt_dec (r * d) 0); [|discriminate].
      destruct (Req_dec_T (b * g) 0) as [?|N2]; [lra|].
      unfold negative in S2. destruct (Rlt_dec (b * g) 0); [lra|discriminate].
  - intros (-> & -> & Hl & Hc).
    apply Ib with (x := 0) in Hl. apply Ib with (x := 0) in Hc.
    rewrite <- Hb in Hl. rewrite <- Hd in Hc. fold b in Hl. fold d in Hc.
    split; [ring|].
    destruct (Req_dec_T (0 * d) 0) as [_|?]; [|lra].
    destruct (Req_dec_T (b * 0) 0) as [_|?]; [|lra].
    rewrite (negative_false 0), (negative_true d), (negative_true b) by lra.
    reflexivity.
Qed.

(** [gamma] for real parameters, signs of zero included: on the lower lip
    it is the root with negative imaginary part, elsewhere the root of
    the exact layer. *)
Lemma gamma_ieee_real omega r l g c :
  let gm := exact (gamma_ieee omega (creal r) (creal l) (creal g) (creal c)) in
  (r = 0 -> g = 0 -> omega * l < 0 -> omega * c < 0 ->
   gm = mkC 0 (- sqrt ((omega * l) * (omega * c)))) /\
  (~ (r = 0 /\ g = 0 /\ omega * l < 0 /\ omega * c < 0) ->
   gm = csqrt (Cmul (Z'_sample omega (RtoC r) (RtoC l))
                    (Z'_sample omega (RtoC g) (RtoC c)))).
Proof.
  intros gm. subst gm. unfold gamma_ieee.
  pose proof (product_on_lower_lip omega r l g c) as Hlip. cbv zeta in Hlip.
  set (P := cmul_ieee _ _) in *.
  assert (EP : exact P = Cmul (Z'_sample omega (RtoC r) (RtoC l))
                              (Z'_sample omega (RtoC g) (RtoC c))).
  { subst P. by rewrite exact_cmul_ieee, exact_Z_ieee, exact_Y_ieee. }
  split.
  - intros Hr Hg Hl Hc.
    destruct (proj2 Hlip) as [E S]; [auto|].
    rewrite (csqrt_ieee_on_zero_minus P E S), EP, Hr, Hg.
    rewrite !Z'_sample_real by lra.
    assert (0 < omega * l * (omega * c)) by nra.
    replace (csqrt (Cmul (mkC 0 (omega * l)) (mkC 0 (omega * c))))
      with (mkC 0 (sqrt (omega * l * (omega * c)))); [reflexivity|].
    symmetry. apply csqrt_unique.
    + pose proof (sqrt_pos (omega * l * (omega * c))).
      split; simpl; [lra|]. intros _. assumption.
    + pose proof (sqrt_sqrt (omega * l * (omega * c))) as Q.
      apply complex_eq; simpl; [|ring].
      replace (0 * 0 - sqrt (omega * l * (omega * c))
                       * sqrt (omega * l * (omega * c)))
        with (- (sqrt (omega * l * (omega * c))
                 * sqrt (omega * l * (omega * c)))) by ring.
      rewrite Q by lra. ring.
  - intros Hn. rewrite csqrt_ieee_off_lip; [by rewrite EP|].
    intros E. destruct (minus_zero (fim P)) eqn:S; [|reflexivity].
    exfalso. apply Hn, Hlip. auto.
Qed.

(** With signed zeros too, [gamma] squares to [Z*Y] and has non-negative
    real part: what fails on the lower lip is only the choice between the
    two purely imaginary roots. *)
Lemma gamma_ieee_root omega r l g c :
  let gm := exact (gamma_ieee omega r l g c) in
  Cmul gm gm = Cmul (exact (Z_ieee omega r l)) (exact (Y_ieee omega g c)) /\
  0 <= re gm.
Proof.
  intros gm. subst gm. unfold gamma_ieee.
  rewrite <- exact_cmul_ieee. apply csqrt_ieee_root.
Qed.

(** The line [R = G = 0], [L = C = -1] at [w = 1]: [Z = Y = -j], the
    product is [-1 - 0.0j], and [gamma] is [-j]. *)
Example gamma_ieee_backward :
  exact (Z_ieee 1 (creal 0) (creal (-1))) = mkC 0 (-1) /\
  exact (Y_ieee 1 (creal 0) (creal (-1))) = mkC 0 (-1) /\
  exact (gamma_ieee 1 (creal 0) (creal (-1)) (creal 0) (creal (-1)))
  = mkC 0 (-1).
Proof.
  assert (EZ : exact (Z_ieee 1 (creal 0) (creal (-1))) = mkC 0 (-1)).
  { rewrite exact_Z_ieee, !exact_creal, Z'_sample_real by lra.
    apply complex_eq; simpl; ring. }
  split; [exact EZ|]. split; [exact EZ|].
  destruct (gamma_ieee_real 1 0 (-1) 0 (-1)) as [H _].
  rewrite H by lra.
  replace (1 * -1 * (1 * -1)) with 1 by ring. rewrite sqrt_1.
  reflexivity.
Qed.


(** ** Round trips *)

Lemma unzip3 (ws : list R) (gs zs : list complex) :
  length gs = length ws -> length zs = length ws ->
  let ts := zip (zip ws gs) zs in
  ws = (fun t => t.1.1) <$> ts /\ gs = (fun t => t.1.2) <$> ts /\
  zs = snd <$> ts.
Proof.
  intros Hg Hz ts. subst ts.
  assert (Hl : length (zip ws gs) = length ws).
  { rewrite length_zip_with. lia. }
  split; [|split].
  - change (fun t : R * complex * complex => t.1.1)
      with (fst ∘ (@fst (R * complex) complex)).
    rewrite list_fmap_compose, !fst_zip; [done|lia|lia].
  - change (fun t : R * complex * complex => t.1.2)
      with (snd ∘ (@fst (R * complex) complex)).
    rewrite list_fmap_compose, fst_zip, snd_zip; [done|lia|lia].
  - rewrite snd_zip; [done|lia].
Qed.





(** The trip from four real scalars to [gamma], [z0_characteristic] and
    back through [from_media], written sample by sample. *)
Lemma scalar_pipeline f port r l g c :
  let a := fun omega => Z'_sample omega (RtoC r) (RtoC l) in
  let b := fun omega => Z'_sample omega (RtoC g) (RtoC c) in
  let gm := fun omega => csqrt (Cmul (a omega) (b omega)) in
  let zt := fun omega => csqrt (Cdiv (a omega) (b omega)) in
  gamma (scalar_mode f port r l g c) = Ok (Vec (gm <$> w f)) /\
  z0_characteristic (scalar_mode f port r l g c) = Ok (Vec (zt <$> w f)) /\
  from_media (mkMedia (Some f) (Vec (gm <$> w f)) (Vec (zt <$> w f)) port)
  = Ok (mkMode (mkMediaBase (Some f) port None)
         (Vec ((fun t => RtoC (im (Cdiv (gm t) (zt t)) / t)) <$> w f))
         (Vec ((fun t => RtoC (im (Cmul (gm t) (zt t)) / t)) <$> w f))
         (Vec ((fun t => RtoC (re (Cmul (gm t) (zt t)))) <$> w f))
         (Vec ((fun t => RtoC (re (Cdiv (gm t) (zt t)))) <$> w f))).
Proof.
  intros a b gm zt.
  assert (Hw : w f = (fun t => t) <$> w f) by (symmetry; apply list_fmap_id).
  split; [|split].
  - apply (gamma_spread (w f) (scalar_mode f port r l g c) f (fun t => t)
             eq_refl Hw); apply spread_scalar.
  - apply (z0_characteristic_spread (w f) (scalar_mode f port r l g c) f
             (fun t => t) eq_refl Hw); apply spread_scalar.
  - apply (from_media_spread (w f) f (fun t => t) gm zt port Hw).
Qed.

(** C1, amended.  Round trip from parameters: on a grid of positive
    angular frequencies, for scalar [R >= 0], [L > 0], [G >= 0], [C > 0],
    the mode built by [from_media] from the first mode's [gamma] and
    [z0_characteristic] has, at every sample, exactly the parameters of
    the first mode. *)
Theorem scalar_parameters_roundtrip (f : Frequency) (port : option numlike)
    (r l g c : R) :
  Forall (fun omega => 0 < omega) (w f) ->
  0 <= r -> 0 < l -> 0 <= g -> 0 < c ->
  exists g1 z1 M2,
    gamma (scalar_mode f port r l g c) = Ok g1 /\
    z0_characteristic (scalar_mode f port r l g c) = Ok z1 /\
    from_media (mkMedia (Some f) g1 z1 port) = Ok M2 /\
    R' M2 = Vec ((fun _ => RtoC r) <$> w f) /\
    L' M2 = Vec ((fun _ => RtoC l) <$> w f) /\
    G' M2 = Vec ((fun _ => RtoC g) <$> w f) /\
    C' M2 = Vec ((fun _ => RtoC c) <$> w f).
Proof.
  intros Hw Hr Hl Hg Hc.
  destruct (scalar_pipeline f port r l g c) as (H1 & H2 & H3).
  cbv zeta in H1, H2, H3.
  eexists _, _, _. split; [exact H1|]. split; [exact H2|]. split; [exact H3|].
  cbn [R' L' G' C'].
  assert (Hs : forall t, 0 < t ->
    Cmul (csqrt (Cmul (Z'_sample t (RtoC r) (RtoC l))
                      (Z'_sample t (RtoC g) (RtoC c))))
         (csqrt (Cdiv (Z'_sample t (RtoC r) (RtoC l))
                      (Z'_sample t (RtoC g) (RtoC c))))
      = mkC r (t * l) /\
    Cdiv (csqrt (Cmul (Z'_sample t (RtoC r) (RtoC l))
                      (Z'_sample t (RtoC g) (RtoC c))))
         (csqrt (Cdiv (Z'_sample t (RtoC r) (RtoC l))
                      (Z'_sample t (RtoC g) (RtoC c))))
      = mkC g (t * c)).
  { intros t Ht.
    assert (0 < t * l) by (apply Rmult_lt_0_compat; lra).
    assert (0 < t * c) by (apply Rmult_lt_0_compat; lra).
    rewrite !Z'_sample_real by lra.
    apply sqrt_pair; simpl; lra. }
  repeat split; f_equal; apply Forall_fmap_ext_1;
    (eapply Forall_impl; [exact Hw|]); intros t Ht; cbv beta;
    destruct (Hs t Ht) as [E1 E2]; rewrite ?E1, ?E2; simpl;
    f_equal; try field; lra.
Qed.

(** C1 at the default lossless line, [w = 1]. *)
Lemma scalar_parameters_roundtrip_witness :
  exists g1 z1 M2,
    gamma (scalar_mode grid1 None 0 280e-9 0 90e-12) = Ok g1 /\
    z0_characteristic (scalar_mode grid1 None 0 280e-9 0 90e-12) = Ok z1 /\
    from_media (mkMedia (Some grid1) g1 z1 None) = Ok M2 /\
    R' M2 = Vec [RtoC 0] /\ L' M2 = Vec [RtoC 280e-9] /\
    G' M2 = Vec [RtoC 0] /\ C' M2 = Vec [RtoC 90e-12].
Proof.
  apply (scalar_parameters_roundtrip grid1 None 0 280e-9 0 90e-12).
  - repeat constructor. simpl. lra.
  - lra.
  - lra.
  - lra.
  - lra.
Defined.

Lemma pipeline_R' f port r l g c g1 z1 M2 :
  gamma (scalar_mode f port r l g c) = Ok g1 ->
  z0_characteristic (scalar_mode f port r l g c) = Ok z1 ->
  from_media (mkMedia (Some f) g1 z1 port) = Ok M2 ->
  R' M2 = Vec ((fun t =>
    RtoC (re (Cmul
      (csqrt (Cmul (Z'_sample t (RtoC r) (RtoC l))
                   (Z'_sample t (RtoC g) (RtoC c))))
      (csqrt (Cdiv (Z'_sample t (RtoC r) (RtoC l))
                   (Z'_sample t (RtoC g) (RtoC c))))))) <$> w f).
Proof.
  intros H1 H2 H3.
  destruct (scalar_pipeline f port r l g c) as (G1 & G2 & G3).
  cbv zeta in G1, G2, G3.
  assert (g1 = Vec ((fun t =>
            csqrt (Cmul (Z'_sample t (RtoC r) (RtoC l))
                        (Z'_sample t (RtoC g) (RtoC c)))) <$> w f))
    as -> by congruence.
  assert (z1 = Vec ((fun t =>
            csqrt (Cdiv (Z'_sample t (RtoC r) (RtoC l))
                        (Z'_sample t (RtoC g) (RtoC c)))) <$> w f))
    as -> by congruence.
  rewrite G3 in H3. by injection H3 as <-.
Qed.

(** C1 as worded fails: at [w = 1], from [R = -1], [L = 1], [G = -1],
    [C = 1] the trip returns [R = 1]; the difference is 2. *)
Lemma negative_parameters_flip_sign : ~ every_scalar_mode_roundtrips 1.
Proof.
  intros H.
  destruct (H grid1 None (-1) 1 (-1) 1)
    as (g1 & z1 & M2 & H1 & H2 & H3 & HR & _).
  { repeat constructor. simpl. lra. }
  rewrite (pipeline_R' _ _ _ _ _ _ _ _ _ H1 H2 H3) in HR.
  unfold all_close in HR. rewrite Forall_fmap in HR.
  change (w grid1) with [1] in HR.
  apply Forall_inv in HR. destruct HR as [HR _]. revert HR.
  unfold compose.
  assert (Ea : Z'_sample 1 (RtoC (-1)) (RtoC 1) = mkC (-1) 1).
  { rewrite Z'_sample_real by lra. f_equal. lra. }
  rewrite Ea.
  assert (Eg : csqrt (Cmul (mkC (-1) 1) (mkC (-1) 1)) = mkC 1 (-1)).
  { apply csqrt_unique.
    - split; simpl; lra.
    - apply complex_eq; simpl; lra. }
  assert (Ez : csqrt (Cdiv (mkC (-1) 1) (mkC (-1) 1)) = mkC 1 0).
  { apply csqrt_unique.
    - split; simpl; lra.
    - apply complex_eq; unfold Cdiv, Cnorm2; simpl; field. }
  rewrite Eg, Ez. simpl.
  replace (1 * 1 - -1 * 0 - -1) with 2 by ring.
  rewrite Rabs_right; lra.
Qed.

(** ** The imperative layer agrees with the value layer *)

Lemma extends_refl s : extends s s.
Proof. split; reflexivity. Qed.

Lemma extends_trans s1 s2 s3 : extends s1 s2 -> extends s2 s3 -> extends s1 s3.
Proof. intros [A1 B1] [A2 B2]. split; [congruence|]. by etrans. Qed.

Lemma val_ok_weaken h h' v : val_ok h v -> h ⊆ h' -> val_ok h' v.
Proof.
  destruct v as [c|p]; simpl; [done|]. intros [l Hl] Hsub.
  exists l. by eapply lookup_weaken.
Qed.

Lemma deref_weaken h h' v : val_ok h v -> h ⊆ h' -> deref h' v = deref h v.
Proof.
  destruct v as [c|p]; simpl; [done|]. intros [l Hl] Hsub.
  rewrite (lookup_total_correct _ _ _ Hl).
  by rewrite (lookup_total_correct _ _ _ (lookup_weaken _ _ _ _ Hl Hsub)).
Qed.

Lemma free_weaken (h h' : store) p : h ⊆ h' -> h' !! p = None -> h !! p = None.
Proof. intros Hsub Hn. by eapply lookup_weaken_None. Qed.

Lemma wf_extends s s' : wf s -> extends s s' -> wf s'.
Proof.
  intros (HC & HL & HR & HG & Hf) [Hs Hm]. unfold wf. rewrite Hs.
  repeat split; eauto using val_ok_weaken.
  destruct (o_frequency (self s)) as [[f p]|]; [|done].
  by eapply lookup_weaken.
Qed.

Lemma snapshot_extends s s' : wf s -> extends s s' -> snapshot s' = snapshot s.
Proof.
  intros (HC & HL & HR & HG & Hf) [Hs Hm]. unfold snapshot. rewrite Hs.
  by rewrite !(deref_weaken (mem s) (mem s')).
Qed.

(** A result of arithmetic is a number, or an array at an address that
    was free. *)
Lemma new_value_spec x s :
  exists v s', new_value x s = (Ok v, s') /\ extends s s' /\
    val_ok (mem s') v /\ deref (mem s') v = x /\
    forall p, v = VArr p -> mem s !! p = None.
Proof.
  destruct x as [c|l]; simpl.
  - exists (VNum c), s. split; [done|]. split; [apply extends_refl|]. done.
  - set (p := fresh (dom (mem s))).
    assert (Hp : mem s !! p = None).
    { apply not_elem_of_dom. apply is_fresh. }
    eexists _, _. split; [reflexivity|]. simpl.
    split; [split; [done|by apply insert_subseteq]|].
    split; [rewrite lookup_insert_eq; eauto|].
    split; [by rewrite lookup_total_insert_eq|].
    by intros ? [= <-].
Qed.

Lemma binop_agrees f a b s :
  agrees (broadcast2 f (deref (mem s) a) (deref (mem s) b)) s (binop f a b s).
Proof.
  unfold binop. destruct (broadcast2 _ _ _) as [x|e].
  - destruct (new_value_spec x s) as (v & s' & -> & He & Hok & Hd & Hfree).
    split; [done|]. simpl. by rewrite Hd.
  - split; [apply extends_refl|done].
Qed.

Lemma unop_agrees f a s :
  agrees (Ok (map1 f (deref (mem s) a))) s (unop f a s).
Proof.
  unfold unop.
  destruct (new_value_spec (map1 f (deref (mem s) a)) s)
    as (v & s' & -> & He & Hok & Hd & Hfree).
  split; [done|]. simpl. by rewrite Hd.
Qed.

Lemma bind_M {A B} (m : M A) (k : A -> M B) s :
  (m ≫= k) s = match m s with
               | (Ok a, s') => k a s'
               | (Raise e, s') => (Raise e, s')
               end.
Proof. reflexivity. Qed.

(** The common shape of the properties [Z] and [Y]: [b + 1j*w*a], then
    the guard, which writes into the array just allocated for the sum. *)
Lemma guarded_sum_agrees (fa fb : Object -> val) s :
  wf s -> val_ok (mem s) (fa (self s)) -> val_ok (mem s) (fb (self s)) ->
  agrees
    (x ← (w ← frequency_w (base (snapshot s));
          jw ← np_mul (Scalar Ci) w;
          jwa ← np_mul jw (deref (mem s) (fa (self s)));
          np_add (deref (mem s) (fb (self s))) jwa);
     guard x)
    s
    ((w ← get_w; b ← getattr fb; jw ← binop Cmul (VNum Ci) w;
      a ← getattr fa; jwa ← binop Cmul jw a; z ← binop Cadd b jwa;
      iadd_where_imag_zero z;; mret z) s).
Proof.
  intros Hwf Ha Hb.
  rewrite bind_M. unfold get_w, frequency_w, snapshot. cbn [base frequency].
  destruct Hwf as (_ & _ & _ & _ & Hgrid).
  destruct (o_frequency (self s)) as [[f p0]|] eqn:Hfreq;
    cbn [fmap option_fmap option_map fst];
    [|split; [apply extends_refl|done]].
  rewrite bind_Ok.
  rewrite bind_M. unfold getattr at 1. rewrite bind_M.
  pose proof (binop_agrees Cmul (VNum Ci) (VArr p0) s) as H1.
  assert (Hw : deref (mem s) (VArr p0) = w_array f).
  { simpl. by rewrite (lookup_total_correct _ _ _ Hgrid). }
  rewrite Hw in H1. cbn [deref] in H1.
  fold (np_mul (Scalar Ci) (w_array f)) in H1.
  destruct (binop Cmul (VNum Ci) (VArr p0) s) as [[jw|e] s1];
    destruct H1 as [E1 H1]; cbn [fst snd] in *; [|by rewrite H1].
  destruct H1 as (Hok1 & -> & _). rewrite bind_Ok.
  rewrite bind_M. unfold getattr at 1. rewrite bind_M.
  pose proof (binop_agrees Cmul jw (fa (self s1)) s1) as H2.
  destruct E1 as [Es1 Em1]. rewrite Es1 in *.
  rewrite (deref_weaken _ _ _ Ha Em1) in H2.
  fold (np_mul (deref (mem s1) jw) (deref (mem s) (fa (self s)))) in H2.
  destruct (binop Cmul jw (fa (self s)) s1) as [[jwa|e] s2];
    destruct H2 as [E2 H2]; cbn [fst snd] in *.
  2:{ rewrite H2. split; [|done]. eapply extends_trans; [|exact E2].
      by split. }
  destruct H2 as (Hok2 & -> & _). rewrite bind_Ok.
  rewrite bind_M.
  pose proof (binop_agrees Cadd (fb (self s)) jwa s2) as H3.
  destruct E2 as [Es2 Em2].
  assert (Em02 : mem s ⊆ mem s2) by (by etrans).
  rewrite (deref_weaken _ _ _ Hb Em02) in H3.
  fold (np_add (deref (mem s) (fb (self s))) (deref (mem s2) jwa)) in H3.
  destruct (binop Cadd (fb (self s)) jwa s2) as [[z|e] s3];
    destruct H3 as [E3 H3]; cbn [fst snd] in *.
  2:{ rewrite H3. split; [|done]. destruct E3 as [Es3 Em3].
      split; cbn [fst snd]; [congruence|by etrans]. }
  destruct H3 as (Hok3 & -> & Hfresh). rewrite bind_Ok.
  destruct E3 as [Es3 Em3].
  assert (Em03 : mem s ⊆ mem s3) by (by etrans).
  rewrite bind_M. destruct z as [c|p]; cbn [iadd_where_imag_zero deref guard].
  - split; [|done]. split; cbn [fst snd]; [congruence|done].
  - cbn [mret M_ret fst snd mem self]. split; [split|].
    + cbn. congruence.
    + cbn. apply insert_subseteq_r; [|done].
      eapply free_weaken; [exact Em02|]. by apply Hfresh.
    + cbn. rewrite lookup_insert_eq. split; [eauto|]. split.
      * by rewrite lookup_total_insert_eq.
      * intros ? [= <-]. eapply free_weaken; [exact Em02|]. by apply Hfresh.
Qed.

Lemma get_Z_agrees s : wf s -> agrees (Z' (snapshot s)) s (get_Z s).
Proof.
  intros Hwf. pose proof Hwf as (HC & HL & HR & HG & _).
  exact (guarded_sum_agrees o_L o_R s Hwf HL HR).
Qed.

Lemma get_Y_agrees s : wf s -> agrees (Y' (snapshot s)) s (get_Y s).
Proof.
  intros Hwf. pose proof Hwf as (HC & HL & HR & HG & _).
  exact (guarded_sum_agrees o_C o_G s Hwf HC HG).
Qed.

Lemma wave_agrees op s :
  wf s ->
  agrees (Z ← Z' (snapshot s); Y ← Y' (snapshot s);
          q ← broadcast2 op Z Y; Ok (np_sqrt q))
    s ((Z ← get_Z; Y ← get_Y; q ← binop op Z Y; unop csqrt q) s).
Proof.
  intros Hwf. unfold agrees. rewrite bind_M.
  pose proof (get_Z_agrees s Hwf) as H1. unfold agrees in H1.
  destruct (get_Z s) as [[vz|e] s1]; cbn [fst snd] in *;
    destruct H1 as [E1 H1]; [|by rewrite H1].
  destruct H1 as (Hokz & -> & _). rewrite bind_Ok, bind_M.
  assert (Hwf1 : wf s1) by (by eapply wf_extends).
  pose proof (get_Y_agrees s1 Hwf1) as H2. unfold agrees in H2.
  rewrite (snapshot_extends s s1 Hwf E1) in H2.
  destruct (get_Y s1) as [[vy|e] s2]; cbn [fst snd] in *;
    destruct H2 as [E2 H2].
  2:{ rewrite H2. split; [by eapply extends_trans|done]. }
  destruct H2 as (Hoky & -> & _). rewrite bind_Ok, bind_M.
  pose proof (binop_agrees op vz vy s2) as H3. unfold agrees in H3.
  rewrite (deref_weaken _ _ _ Hokz (proj2 E2)) in H3.
  assert (E02 : extends s s2) by (by eapply extends_trans).
  destruct (binop op vz vy s2) as [[vq|e] s3]; cbn [fst snd] in *;
    destruct H3 as [E3 H3].
  2:{ rewrite H3. split; [by eapply extends_trans|done]. }
  destruct H3 as (Hokq & -> & _). rewrite bind_Ok.
  assert (E03 : extends s s3) by (by eapply extends_trans).
  pose proof (unop_agrees csqrt vq s3) as H4. unfold agrees in H4.
  destruct (unop csqrt vq s3) as [[v|e] s4]; cbn [fst snd] in *;
    destruct H4 as [E4 H4]; [|discriminate].
  destruct H4 as (Hok & Hv & Hfree).
  split; [by eapply extends_trans|]. split; [done|]. split; [exact Hv|].
  intros p Hp. eapply free_weaken; [exact (proj2 E03)|]. by apply Hfree.
Qed.

Lemma read_agrees d s : wf s -> agrees (value_of d (snapshot s)) s (read d s).
Proof.
  intros Hwf. destruct d; simpl.
  - by apply get_Z_agrees.
  - by apply get_Y_agrees.
  - exact (wave_agrees Cdiv s Hwf).
  - exact (wave_agrees Cmul s Hwf).
Qed.

Lemma observe_agrees pure (m : M val) s :
  agrees pure s (m s) -> observe m s = pure.
Proof.
  unfold agrees, observe. destruct (m s) as [[v|e] s']; cbn [fst snd].
  - by intros (_ & _ & -> & _).
  - by intros (_ & ->).
Qed.

Lemma observe_read d s : wf s -> observe (read d) s = value_of d (snapshot s).
Proof. intros Hwf. by apply observe_agrees, read_agrees. Qed.

Lemma setattr_spec a v s :
  wf s -> val_ok (mem s) v ->
  exists s', setattr a v s = (Ok (), s') /\ wf s' /\ mem s' = mem s /\
    snapshot s' = with_attr a (deref (mem s) v) (snapshot s).
Proof.
  intros (HC & HL & HR & HG & Hf) Hv.
  destruct a; (eexists; split; [reflexivity|]); (split; [|split; reflexivity]);
    unfold wf; simpl; auto.
Qed.

(** The guard at work next to a stored array: in [state2] both samples
    of [Z] are nudged, and the array of zeros behind [R] is still an array
    of zeros afterwards. *)
Example guard_spares_stored_array :
  observe get_Z state2 = Ok (Vec [mkC 0 1e-12; mkC 0 1e-12]) /\
  mem (after get_Z state2) !! 1%nat = Some [RtoC 0; RtoC 0].
Proof.
  assert (Hwf : wf state2).
  { unfold wf, state2, heap2. simpl. repeat split; done. }
  split.
  - change get_Z with (read d_Z). rewrite (observe_read d_Z state2 Hwf).
    assert (HR : R' (snapshot state2) = Vec [RtoC 0; RtoC 0]).
    { unfold snapshot, state2, heap2. cbn [R' self mem o_R deref].
      by f_equal. }
    unfold value_of, Z', Z'_raw. rewrite HR.
    unfold snapshot, state2. simpl.
    do 2 f_equal. unfold nudge. simpl.
    repeat (destruct (Req_dec_T _ _) as [_|NE]; [|exfalso; apply NE; lra]).
    repeat f_equal; apply complex_eq; simpl; unfold guard_eps; lra.
  - destruct (get_Z_agrees state2 Hwf) as [[_ Hsub] _].
    eapply lookup_weaken; [|exact Hsub]. reflexivity.
Qed.

(** C10.  Reading a derived quantity leaves the state unchanged: after an
    access of [Z], [Y], [z0_characteristic] or [gamma] in a well-formed
    state the attributes are bound as before, every array that was in the
    store (those behind [R], [L], [G], [C] and behind the grid's [w]
    included) holds what it held, an array returned lives at an address
    that was free before the access (so the guard's in-place increment
    went to a new array), and a second access returns the same value as
    the first. *)
Theorem reading_leaves_state_unchanged (s : state) (d : derived) :
  wf s -> read_only d s.
Proof.
  intros Hwf. pose proof (read_agrees d s Hwf) as [E H].
  unfold read_only, after. cbv zeta.
  assert (Hwf' : wf (read d s).2) by (by eapply wf_extends).
  assert (Hsnap : snapshot (read d s).2 = snapshot s)
    by (by apply snapshot_extends).
  split; [exact (proj1 E)|]. split.
  { intros p l Hp. eapply lookup_weaken; [exact Hp|exact (proj2 E)]. }
  split.
  { intros p Hp. rewrite Hp in H. destruct H as (_ & _ & Hfree).
    by apply Hfree. }
  split; [exact Hwf'|]. split; [exact Hsnap|].
  by rewrite !observe_read, Hsnap.
Qed.

(** C10 at a state where [R] is a stored array of zeros, [L = 0] and the
    grid starts at DC, so that the guard fires at every sample of [Z]. *)
Lemma reading_leaves_state_unchanged_witness : read_only d_Z state2.
Proof.
  apply (reading_leaves_state_unchanged state2 d_Z).
  unfold wf, state2, heap2. simpl. repeat split; done.
Defined.

(** C9.  No caching: in a well-formed state every read of [Z], [Y],
    [z0_characteristic] or [gamma] returns the value computed from the
    parameters stored at that moment; after assigning one of [C], [L],
    [R], [G] the next read returns the value computed with the new
    parameter; and reads in two states that store the same parameters
    agree. *)
Theorem reads_follow_stored_parameters (s : state) (d : derived) :
  wf s ->
  observe (read d) s = value_of d (snapshot s) /\
  (forall a v, val_ok (mem s) v ->
     observe (setattr a v;; read d) s
     = value_of d (with_attr a (deref (mem s) v) (snapshot s))) /\
  (forall s2, wf s2 -> snapshot s2 = snapshot s ->
     observe (read d) s2 = observe (read d) s).
Proof.
  intros Hwf. split; [by apply observe_read|]. split.
  - intros a v Hv.
    destruct (setattr_spec a v s Hwf Hv) as (s' & Hs' & Hwf' & _ & Hsnap).
    unfold observe. rewrite bind_M, Hs'.
    pose proof (observe_read d s' Hwf') as Ho. unfold observe in Ho.
    by rewrite Ho, Hsnap.
  - intros s2 Hwf2 Hsnap. by rewrite !observe_read, Hsnap.
Qed.

(** C9 at the same state: [Z] before, and after [R] is set to [1]. *)
Lemma reads_follow_stored_parameters_witness :
  observe (read d_Z) state2 = Z' (snapshot state2) /\
  observe (setattr attr_R (VNum (RtoC 1));; read d_Z) state2
  = Z' (with_attr attr_R (Scalar (RtoC 1)) (snapshot state2)).
Proof.
  assert (Hwf : wf state2).
  { unfold wf, state2, heap2. simpl. repeat split; done. }
  destruct (reads_follow_stored_parameters state2 d_Z Hwf) as (H1 & H2 & _).
  split; [exact H1|]. exact (H2 attr_R (VNum (RtoC 1)) I).
Defined.

(** * Further properties of the code *)

(** The sample law, index by index. *)
Lemma derived_at self f k omega r l g c :
  frequency (base self) = Some f ->
  parameters_fit (length (w f)) self ->
  w f !! k = Some omega ->
  sample_at (R' self) k = Some r -> sample_at (L' self) k = Some l ->
  sample_at (G' self) k = Some g -> sample_at (C' self) k = Some c ->
  exists zs ys gs z0s,
    Z' self = Ok (Vec zs) /\ Y' self = Ok (Vec ys) /\
    gamma self = Ok (Vec gs) /\ z0_characteristic self = Ok (Vec z0s) /\
    length zs = length (w f) /\ length ys = length (w f) /\
    length gs = length (w f) /\ length z0s = length (w f) /\
    zs !! k = Some (Z'_sample omega r l) /\
    ys !! k = Some (Z'_sample omega g c) /\
    gs !! k = Some (csqrt (Cmul (Z'_sample omega r l) (Z'_sample omega g c))) /\
    z0s !! k = Some (csqrt (Cdiv (Z'_sample omega r l) (Z'_sample omega g c))).
Proof.
  intros Hf Hfit Hw HR HL HG HC.
  destruct (derived_over_indices self f Hf Hfit) as (HZ & HY & Hg & Hz).
  cbv zeta in HZ, HY, Hg, Hz.
  assert (Hk : (k < length (w f))%nat) by (by eapply lookup_lt_Some).
  eexists _, _, _, _.
  split; [exact HZ|]. split; [exact HY|]. split; [exact Hg|]. split; [exact Hz|].
  rewrite !length_fmap, !length_seq. repeat (split; [reflexivity|]).
  rewrite !lookup_fmap_seq by assumption.
  rewrite Hw, HR, HL, HG, HC. simpl. done.
Qed.

Lemma nudge_real_sample omega x y z :
  z = nudge (Cadd x (Cmul (Cmul Ci (RtoC omega)) y)) ->
  im x = 0 -> im y = 0 ->
  re z = re x /\
  (omega * re y <> 0 -> im z = omega * re y) /\
  (omega * re y = 0 -> im z = 1e-12).
Proof.
  intros -> Hx Hy. unfold nudge.
  destruct (Req_dec_T _ _) as [E|NE]; simpl in *; rewrite Hx, Hy in *;
    unfold guard_eps; repeat split; intros; lra.
Qed.

Lemma sum_follows_sample_law self f (a b : numlike) out :
  frequency (base self) = Some f ->
  well_shaped (length (w f)) a -> well_shaped (length (w f)) b ->
  (forall om aa bb,
      w f = om <$> seq 0 (length (w f)) ->
      spread (seq 0 (length (w f))) aa a ->
      spread (seq 0 (length (w f))) bb b ->
      out = Ok (Vec ((fun k => Z'_sample (om k) (aa k) (bb k))
                       <$> seq 0 (length (w f))))) ->
  follows_sample_law f a b out.
Proof.
  intros Hf Ha Hb Hout.
  rewrite (Hout _ _ _ (list_as_seq 0 (w f)) (as_spread _ _ Ha) (as_spread _ _ Hb)).
  eexists. split; [reflexivity|].
  split; [by rewrite length_fmap, length_seq|].
  intros k omega x y Hw Hx Hy.
  assert (Hk : (k < length (w f))%nat) by (by eapply lookup_lt_Some).
  rewrite lookup_fmap_seq by assumption. rewrite Hw, Hx, Hy. simpl.
  split; [reflexivity|].
  intros z [= <-]. by apply nudge_real_sample.
Qed.

(** X1.  Sample law of [Z] and [Y]: on a grid of [N] samples, when [R]
    and [L] are each a scalar or an array of length [N], [Z] returns an
    array of length [N] whose sample at index [k] is the guarded value of
    [R[k] + 1j*w[k]*L[k]] (a scalar counting the same at every index); for
    real samples its real part is [R[k]] (the guard never changes it) and
    its imaginary part is [w[k]*L[k]], or [1e-12] where that product is
    zero.  Likewise [Y] with [G] and [C]. *)
Theorem impedance_samples (self : Mode) (f : Frequency) :
  frequency (base self) = Some f ->
  (well_shaped (length (w f)) (R' self) ->
   well_shaped (length (w f)) (L' self) ->
   follows_sample_law f (R' self) (L' self) (Z' self)) /\
  (well_shaped (length (w f)) (G' self) ->
   well_shaped (length (w f)) (C' self) ->
   follows_sample_law f (G' self) (C' self) (Y' self)).
Proof.
  intros Hf. split; intros Ha Hb.
  - apply (sum_follows_sample_law self f); try assumption.
    intros om aa bb Hw Haa Hbb.
    exact (Z'_spread _ self f om Hf Hw aa bb Haa Hbb).
  - apply (sum_follows_sample_law self f); try assumption.
    intros om aa bb Hw Haa Hbb.
    exact (Y'_spread _ self f om Hf Hw aa bb Haa Hbb).
Qed.

(** X1 at the line of three samples whose inductance is an array. *)
Lemma impedance_samples_witness :
  follows_sample_law grid123 (R' vector_L_mode) (L' vector_L_mode)
    (Z' vector_L_mode).
Proof.
  destruct (impedance_samples vector_L_mode grid123 eq_refl) as [H _].
  apply H.
  - left. reflexivity.
  - right. reflexivity.
Defined.

(** The roots of product and quotient for numbers of the closed first
    quadrant off the real axis: where they lie. *)
Lemma wave_quadrant a b :
  0 <= re a -> 0 < im a -> 0 <= re b -> 0 < im b ->
  0 <= re (csqrt (Cmul a b)) /\ 0 < im (csqrt (Cmul a b)) /\
  (0 < re a \/ 0 < re b -> 0 < re (csqrt (Cmul a b))) /\
  0 < re (csqrt (Cdiv a b)).
Proof.
  intros Ha1 Ha2 Hb1 Hb2.
  destruct (csqrt_upper a Ha1 Ha2) as (Hp1 & Hp2 & Hp3).
  destruct (csqrt_upper b Hb1 Hb2) as (Hq1 & Hq2 & Hq3).
  pose proof (csqrt_sqr a) as Sp. pose proof (csqrt_sqr b) as Sq.
  set (p := csqrt a) in *. set (q := csqrt b) in *.
  assert (Nq : nonzero q) by (intros E; rewrite E in Hq1; simpl in Hq1; lra).
  assert (Hpq : im p * im q <= re p * re q) by (apply Rmult_le_compat; lra).
  assert (H1 : 0 < re p * im q) by (apply Rmult_lt_0_compat; lra).
  assert (H2 : 0 < im p * re q) by (apply Rmult_lt_0_compat; lra).
  assert (E1 : csqrt (Cmul a b) = Cmul p q).
  { apply csqrt_unique.
    - split; unfold Cmul; cbn [re im]; [lra|]. intros _. lra.
    - rewrite Cmul_sqr_mul. by rewrite Sp, Sq. }
  assert (Hd : 0 < re (Cdiv p q)).
  { assert (0 < re p * re q) by (apply Rmult_lt_0_compat; lra).
    assert (0 < im p * im q) by (apply Rmult_lt_0_compat; lra).
    assert (0 < re q * re q) by (apply Rmult_lt_0_compat; lra).
    assert (0 < im q * im q) by (apply Rmult_lt_0_compat; lra).
    unfold Cdiv, Cnorm2; cbn [re im].
    apply Rdiv_lt_0_compat; lra. }
  assert (E2 : csqrt (Cdiv a b) = Cdiv p q).
  { apply csqrt_unique.
    - split; [lra|]. intros; lra.
    - rewrite Cdiv_sqr_div by assumption. by rewrite Sp, Sq. }
  rewrite E1, E2. unfold Cmul at 1 2 3; cbn [re im].
  split; [lra|]. split; [lra|]. split; [|exact Hd].
  intros [Hra|Hrb].
  - assert (im p < re p).
    { assert (Ea : re a = re p * re p - im p * im p) by (by rewrite <- Sp).
      destruct (Rlt_or_le (im p) (re p)) as [?|Hle]; [done|].
      assert (re p * re p <= im p * im p) by (apply Rmult_le_compat; lra).
      lra. }
    assert (im p * im q < re p * im q) by (apply Rmult_lt_compat_r; lra).
    assert (re p * im q <= re p * re q) by (apply Rmult_le_compat_l; lra).
    lra.
  - assert (im q < re q).
    { assert (Eb : re b = re q * re q - im q * im q) by (by rewrite <- Sq).
      destruct (Rlt_or_le (im q) (re q)) as [?|Hle]; [done|].
      assert (re q * re q <= im q * im q) by (apply Rmult_le_compat; lra).
      lra. }
    assert (im p * im q < im p * re q) by (apply Rmult_lt_compat_l; lra).
    assert (im p * re q <= re p * re q) by (apply Rmult_le_compat_r; lra).
    lra.
Qed.

(** X2.  Physical line: at a sample with [w > 0], real [R >= 0],
    [L > 0], [G >= 0], [C > 0], [gamma] has non-negative real part
    (positive as soon as [R > 0] or [G > 0]: attenuation) and positive
    imaginary part (forward propagation), [z0_characteristic] has positive
    real part, and the two determine the line: [gamma * z0 = R + j w L]
    and [gamma / z0 = G + j w C]. *)
Theorem physical_line_waves (self : Mode) (f : Frequency) (k : nat)
    (omega r l g c : R) :
  frequency (base self) = Some f ->
  parameters_fit (length (w f)) self ->
  w f !! k = Some omega ->
  sample_at (R' self) k = Some (RtoC r) ->
  sample_at (L' self) k = Some (RtoC l) ->
  sample_at (G' self) k = Some (RtoC g) ->
  sample_at (C' self) k = Some (RtoC c) ->
  0 < omega -> 0 <= r -> 0 < l -> 0 <= g -> 0 < c ->
  exists gs z0s gm zt,
    gamma self = Ok (Vec gs) /\ z0_characteristic self = Ok (Vec z0s) /\
    gs !! k = Some gm /\ z0s !! k = Some zt /\
    0 <= re gm /\ 0 < im gm /\ (0 < r \/ 0 < g -> 0 < re gm) /\
    0 < re zt /\
    Cmul gm zt = mkC r (omega * l) /\ Cdiv gm zt = mkC g (omega * c).
Proof.
  intros Hf Hfit Hw HR HL HG HC Hom Hr Hl Hg Hc.
  destruct (derived_at self f k omega _ _ _ _ Hf Hfit Hw HR HL HG HC)
    as (zs & ys & gs & z0s & _ & _ & Hgm & Hz0 & _ & _ & _ & _ & _ & _ & Hgk & Hzk).
  assert (0 < omega * l) by (apply Rmult_lt_0_compat; lra).
  assert (0 < omega * c) by (apply Rmult_lt_0_compat; lra).
  rewrite !Z'_sample_real in Hgk, Hzk by lra.
  destruct (wave_quadrant (mkC r (omega * l)) (mkC g (omega * c)))
    as (Q1 & Q2 & Q3 & Q4); simpl; try lra.
  destruct (sqrt_pair (mkC r (omega * l)) (mkC g (omega * c)))
    as (P1 & P2); simpl; try lra.
  eexists gs, z0s, _, _.
  split; [exact Hgm|]. split; [exact Hz0|].
  split; [exact Hgk|]. split; [exact Hzk|].
  auto 10.
Qed.

(** X3.  Lossless line: at a sample with [w > 0], [R = G = 0] and real
    [L > 0], [C > 0], [z0_characteristic] is the real number [sqrt(L/C)]
    and [gamma] is [j * w * sqrt(L*C)]. *)
Theorem lossless_line_waves (self : Mode) (f : Frequency) (k : nat)
    (omega l c : R) :
  frequency (base self) = Some f ->
  parameters_fit (length (w f)) self ->
  w f !! k = Some omega ->
  sample_at (R' self) k = Some (RtoC 0) ->
  sample_at (L' self) k = Some (RtoC l) ->
  sample_at (G' self) k = Some (RtoC 0) ->
  sample_at (C' self) k = Some (RtoC c) ->
  0 < omega -> 0 < l -> 0 < c ->
  exists gs z0s,
    gamma self = Ok (Vec gs) /\ z0_characteristic self = Ok (Vec z0s) /\
    gs !! k = Some (mkC 0 (omega * sqrt (l * c))) /\
    z0s !! k = Some (RtoC (sqrt (l / c))).
Proof.
  intros Hf Hfit Hw HR HL HG HC Hom Hl Hc.
  destruct (derived_at self f k omega _ _ _ _ Hf Hfit Hw HR HL HG HC)
    as (zs & ys & gs & z0s & _ & _ & Hgm & Hz0 & _ & _ & _ & _ & _ & _ & Hgk & Hzk).
  assert (0 < omega * l) by (apply Rmult_lt_0_compat; lra).
  assert (0 < omega * c) by (apply Rmult_lt_0_compat; lra).
  assert (0 < l * c) by (apply Rmult_lt_0_compat; lra).
  assert (0 < l / c) by (apply Rdiv_lt_0_compat; lra).
  rewrite !Z'_sample_real in Hgk, Hzk by lra.
  exists gs, z0s. split; [exact Hgm|]. split; [exact Hz0|].
  rewrite Hgk, Hzk. split; f_equal.
  - apply csqrt_unique.
    + pose proof (sqrt_pos (l * c)).
      split; simpl; [lra|]. intros _. apply Rmult_le_pos; lra.
    + pose proof (sqrt_sqrt (l * c)) as S.
      apply complex_eq; simpl; [|ring].
      replace (0 * 0 - omega * sqrt (l * c) * (omega * sqrt (l * c)))
        with (- (omega * omega * (sqrt (l * c) * sqrt (l * c)))) by ring.
      rewrite S by lra. ring.
  - apply csqrt_unique.
    + pose proof (sqrt_pos (l / c)).
      split; simpl; [lra|]. intros _. lra.
    + pose proof (sqrt_sqrt (l / c)) as S.
      apply complex_eq; unfold Cdiv, Cnorm2; simpl.
      * replace (sqrt (l / c) * sqrt (l / c) - 0 * 0)
          with (sqrt (l / c) * sqrt (l / c)) by ring.
        rewrite S by lra. field. split; lra.
      * field. split; lra.
Qed.

(** X4.  DC sample of a line without resistance and conductance: where
    [w = 0] and [R = G = 0], whatever [L] and [C] are, the guard makes
    both [Z] and [Y] equal to [1e-12 j], so [gamma] is [1e-12 j] and
    [z0_characteristic] is [1] there (not [sqrt(L/C)]). *)
Theorem dc_sample_waves (self : Mode) (f : Frequency) (k : nat)
    (l c : complex) :
  frequency (base self) = Some f ->
  parameters_fit (length (w f)) self ->
  w f !! k = Some 0 ->
  sample_at (R' self) k = Some (RtoC 0) ->
  sample_at (L' self) k = Some l ->
  sample_at (G' self) k = Some (RtoC 0) ->
  sample_at (C' self) k = Some c ->
  exists zs ys gs z0s,
    Z' self = Ok (Vec zs) /\ Y' self = Ok (Vec ys) /\
    gamma self = Ok (Vec gs) /\ z0_characteristic self = Ok (Vec z0s) /\
    zs !! k = Some (mkC 0 1e-12) /\ ys !! k = Some (mkC 0 1e-12) /\
    gs !! k = Some (mkC 0 1e-12) /\ z0s !! k = Some (mkC 1 0).
Proof.
  intros Hf Hfit Hw HR HL HG HC.
  destruct (derived_at self f k 0 _ _ _ _ Hf Hfit Hw HR HL HG HC)
    as (zs & ys & gs & z0s & HZ & HY & Hgm & Hz0 & _ & _ & _ & _
        & Hzk & Hyk & Hgk & Hzk0).
  assert (E : forall x, Z'_sample 0 (RtoC 0) x = mkC 0 1e-12).
  { intros x. unfold Z'_sample, nudge.
    destruct (Req_dec_T _ _) as [_|NE].
    - apply complex_eq; simpl; unfold guard_eps; ring.
    - exfalso. apply NE. simpl. ring. }
  rewrite E in Hzk. rewrite E in Hyk.
  rewrite (E l), (E c) in Hgk. rewrite (E l), (E c) in Hzk0.
  exists zs, ys, gs, z0s. repeat (split; [assumption|]).
  rewrite Hgk, Hzk0. split; f_equal.
  - apply csqrt_unique.
    + split; simpl; lra.
    + apply complex_eq; simpl; lra.
  - apply csqrt_unique.
    + split; simpl; lra.
    + apply complex_eq; unfold Cdiv, Cnorm2; simpl; field.
Qed.

Lemma real_with_RtoC P c : real_with P c -> c = RtoC (re c) /\ P (re c).
Proof.
  intros [Hi HP]. split; [|done]. apply complex_eq; simpl; done.
Qed.

(** X5.  Round trip for parameters given per sample: on a grid of
    positive angular frequencies, for a mode whose parameters are each a
    scalar or an array of the grid's length, with real samples [R >= 0],
    [L > 0], [G >= 0], [C > 0], the mode built by [from_media] from its
    [gamma] and [z0_characteristic] has four array parameters whose
    samples are exactly those of the first mode. *)
Theorem sampled_parameters_roundtrip (M1 : Mode) (f : Frequency)
    (port : option numlike) :
  frequency (base M1) = Some f ->
  parameters_fit (length (w f)) M1 ->
  Forall (fun omega => 0 < omega) (w f) ->
  samples_real (length (w f)) (fun r => 0 <= r) (R' M1) ->
  samples_real (length (w f)) (fun l => 0 < l) (L' M1) ->
  samples_real (length (w f)) (fun g => 0 <= g) (G' M1) ->
  samples_real (length (w f)) (fun c => 0 < c) (C' M1) ->
  exists g1 z1 M2 Rs Ls Gs Cs,
    gamma M1 = Ok g1 /\ z0_characteristic M1 = Ok z1 /\
    from_media (mkMedia (Some f) g1 z1 port) = Ok M2 /\
    R' M2 = Vec Rs /\ L' M2 = Vec Ls /\ G' M2 = Vec Gs /\ C' M2 = Vec Cs /\
    forall k, (k < length (w f))%nat ->
      Rs !! k = sample_at (R' M1) k /\ Ls !! k = sample_at (L' M1) k /\
      Gs !! k = sample_at (G' M1) k /\ Cs !! k = sample_at (C' M1) k.
Proof.
  intros Hf Hfit Hpos HR HL HG HC.
  destruct (derived_over_indices M1 f Hf Hfit) as (_ & _ & Hg & Hz).
  cbv zeta in Hg, Hz.
  set (N := length (w f)) in *.
  set (om := fun k => default 0 (w f !! k)) in *.
  assert (Hw : w f = om <$> seq 0 N) by apply (list_as_seq 0).
  eexists _, _, _, _, _, _, _.
  split; [exact Hg|]. split; [exact Hz|].
  split; [exact (from_media_spread (seq 0 N) f om _ _ port Hw)|].
  cbn [R' L' G' C']. repeat (split; [reflexivity|]).
  intros k Hk. rewrite !lookup_fmap_seq by assumption.
  destruct Hfit as (FR & FL & FG & FC).
  destruct (sample_at_fit _ _ k FR Hk) as [r Er].
  destruct (sample_at_fit _ _ k FL Hk) as [l El].
  destruct (sample_at_fit _ _ k FG Hk) as [g Eg].
  destruct (sample_at_fit _ _ k FC Hk) as [c Ec].
  destruct (real_with_RtoC _ _ (HR k r Hk Er)) as [Rr Pr].
  destruct (real_with_RtoC _ _ (HL k l Hk El)) as [Rl Pl].
  destruct (real_with_RtoC _ _ (HG k g Hk Eg)) as [Rg Pg].
  destruct (real_with_RtoC _ _ (HC k c Hk Ec)) as [Rc Pc].
  destruct (lookup_lt_is_Some_2 (w f) k Hk) as [omega Ew].
  assert (Hom : 0 < omega) by (by eapply (Forall_lookup_1 _ _ _ _ Hpos)).
  unfold om. rewrite Er, El, Eg, Ec, Ew.
  cbn [default from_option]. unfold Datatypes.id.
  cbv beta in Pr, Pl, Pg, Pc.
  rewrite Rr, Rl, Rg, Rc.
  assert (Hol : 0 < omega * re l) by (by apply Rmult_lt_0_compat).
  assert (Hoc : 0 < omega * re c) by (by apply Rmult_lt_0_compat).
  rewrite !Z'_sample_real by lra.
  destruct (sqrt_pair (mkC (re r) (omega * re l)) (mkC (re g) (omega * re c)))
    as (P1 & P2); try (simpl; lra).
  rewrite P1, P2. simpl.
  repeat split; do 2 f_equal; field; lra.
Qed.

Lemma Z'_sample_of_parts omega z :
  omega <> 0 ->
  Z'_sample omega (RtoC (re z)) (RtoC (im z / omega)) = nudge z.
Proof.
  intros Hw. unfold Z'_sample. f_equal.
  apply complex_eq; simpl; field; done.
Qed.

(** X6.  The inverse constructor followed by [Z] and [Y]: on a grid
    without DC, for any [gamma] and any nowhere-zero [z0] of the grid's
    length, the mode built by [from_media] has [Z] equal to the guarded
    [gamma * z0] and [Y] equal to the guarded [gamma / z0], sample by
    sample. *)
Theorem inverse_then_impedance (f : Frequency) (port : option numlike)
    (gs zs : list complex) :
  length gs = length (w f) -> length zs = length (w f) ->
  Forall (fun omega => omega <> 0) (w f) ->
  Forall nonzero zs ->
  exists m,
    from_media (mkMedia (Some f) (Vec gs) (Vec zs) port) = Ok m /\
    Z' m = Ok (Vec (nudge <$> zip_with Cmul gs zs)) /\
    Y' m = Ok (Vec (nudge <$> zip_with Cdiv gs zs)).
Proof.
  intros Lg Lz Hw _.
  destruct (unzip3 (w f) gs zs Lg Lz) as (Ew & Eg & Ez).
  set (ts := zip (zip (w f) gs) zs) in *.
  pose proof (from_media_spread ts f (fun t => t.1.1) (fun t => t.1.2) snd
                port Ew) as Hm.
  rewrite <- Eg, <- Ez in Hm.
  eexists. split; [exact Hm|].
  assert (Hom : Forall (fun t : R * complex * complex => t.1.1 <> 0) ts).
  { apply Forall_lookup. intros i t Hi.
    apply (Forall_lookup_1 _ _ i _ Hw).
    by rewrite Ew, list_lookup_fmap, Hi. }
  split.
  - erewrite Z'_spread; [|reflexivity|exact Ew|apply spread_vec..].
    do 2 f_equal. rewrite Eg, Ez at 1. rewrite zip_with_same.
    rewrite <- list_fmap_compose. apply Forall_fmap_ext_1.
    eapply Forall_impl; [exact Hom|]. intros t Ht. cbv beta.
    by rewrite Z'_sample_of_parts.
  - erewrite Y'_spread; [|reflexivity|exact Ew|apply spread_vec..].
    do 2 f_equal. rewrite Eg, Ez at 1. rewrite zip_with_same.
    rewrite <- list_fmap_compose. apply Forall_fmap_ext_1.
    eapply Forall_impl; [exact Hom|]. intros t Ht. cbv beta.
    by rewrite Z'_sample_of_parts.
Qed.



(** With scalar [gamma] and [z0], [R] and [G] come out as scalars and [L]
    and [C] as arrays over the grid. *)
Example from_media_of_scalars :
  exists m, from_media scalar_media = Ok m /\
    shape (R' m) = None /\ shape (G' m) = None /\
    shape (L' m) = Some 3%nat /\ shape (C' m) = Some 3%nat.
Proof. eexists. split; [reflexivity|]. simpl. auto. Qed.

Lemma broadcast2_comm f x y :
  (forall a b, f a b = f b a) -> broadcast2 f x y = broadcast2 f y x.
Proof.
  intros Hc. destruct x as [a|l1], y as [b|l2]; simpl.
  - by rewrite Hc.
  - do 2 f_equal. apply list_fmap_ext. intros; apply Hc.
  - do 2 f_equal. apply list_fmap_ext. intros; apply Hc.
  - assert (Hz : zip_with f l1 l2 = zip_with f l2 l1).
    { rewrite <- (zip_with_flip f). by apply zip_with_ext. }
    assert (Hm : forall a (l : list complex),
               f a <$> l = (fun x => f x a) <$> l).
    { intros a l. apply list_fmap_ext. intros; apply Hc. }
    destruct (Nat.eq_dec (length l1) (length l2)) as [E|NE],
             (Nat.eq_dec (length l2) (length l1)) as [E'|NE']; try lia.
    + by rewrite Hz.
    + destruct l1 as [|a [|a' l1]], l2 as [|b [|b' l2]];
        cbn [length] in NE, NE'; try lia; cbv beta iota;
        try reflexivity; by rewrite Hm.
Qed.

Lemma Cmul_comm a b : Cmul a b = Cmul b a.
Proof. apply complex_eq; simpl; ring. Qed.

(** X8.  Duality: exchanging [R] with [G] and [L] with [C] exchanges
    [Z] and [Y] and leaves [gamma] as it is, errors included. *)
Theorem gamma_of_dual (self : Mode) :
  Z' (dual self) = Y' self /\ Y' (dual self) = Z' self /\
  gamma (dual self) = gamma self.
Proof.
  split; [reflexivity|]. split; [reflexivity|].
  unfold gamma.
  change (Z' (dual self)) with (Y' self).
  change (Y' (dual self)) with (Z' self).
  destruct (frequency (base self)) as [f|] eqn:Hf.
  - pose proof (Z'_cases self f Hf) as HZ. pose proof (Y'_cases self f Hf) as HY.
    cbv zeta in HZ, HY.
    destruct (raw_clash _ _ _) in HZ; destruct (raw_clash _ _ _) in HY.
    + by rewrite HZ, HY.
    + destruct HY as (ys & -> & _). by rewrite HZ.
    + destruct HZ as (zs & -> & _). by rewrite HY.
    + destruct HZ as (zs & -> & _), HY as (ys & -> & _).
      rewrite !bind_Ok. unfold np_mul.
      by rewrite (broadcast2_comm Cmul (Vec ys) (Vec zs) Cmul_comm).
  - destruct (no_grid self Hf) as (-> & -> & _). reflexivity.
Qed.

Section RenderingOutcome.
Variable str_float : R -> string.
Variable str_int : nat -> string.
Variable fmt_2f : complex -> string.

Lemma render_params_raise m1 m2 self e :
  render_params fmt_2f m1 self = Raise e ->
  render_params fmt_2f m2 self = Raise e.
Proof.
  unfold render_params, format_2f.
  destruct (L' self), (C' self), (R' self), (G' self); simpl; done.
Qed.

Lemma render_raise m1 m2 self e :
  render str_float str_int fmt_2f m1 self = Raise e ->
  render str_float str_int fmt_2f m2 self = Raise e.
Proof.
  unfold render. destruct (render_header str_float str_int self) as [h|e'].
  - rewrite !bind_Ok.
    destruct (render_params fmt_2f m1 self) as [p|e1] eqn:E1; [discriminate|].
    intros [= <-]. by rewrite (render_params_raise m1 m2 self e1 E1).
  - done.
Qed.

(** X9.  Outcome of [__str__] and [__repr__]: both always have the
    outcome of the first (scalar) form, the handler never turning an
    exception into a text; without a grid they raise [AttributeError],
    on a grid with no scaled frequency [IndexError], whatever the
    parameters are; and a text is returned only when all four parameters
    are scalars. *)
Theorem str_outcome (self : Mode) :
  __str__ str_float str_int fmt_2f self
  = render str_float str_int fmt_2f "" self /\
  __repr__ str_float str_int fmt_2f self
  = render str_float str_int fmt_2f "" self /\
  (frequency (base self) = None ->
   __str__ str_float str_int fmt_2f self = Raise AttributeError) /\
  (forall f, frequency (base self) = Some f -> f_scaled f = [] ->
   __str__ str_float str_int fmt_2f self = Raise IndexError) /\
  (forall s, __str__ str_float str_int fmt_2f self = Ok s ->
   ~ is_vec (L' self) /\ ~ is_vec (C' self) /\
   ~ is_vec (R' self) /\ ~ is_vec (G' self)).
Proof.
  assert (H0 : __str__ str_float str_int fmt_2f self
               = render str_float str_int fmt_2f "" self).
  { unfold __str__, try_except_TypeError.
    destruct (render str_float str_int fmt_2f "" self) as [s|e] eqn:E;
      [done|].
    destruct e; try done.
    exact (render_raise "" ".." self TypeError E). }
  split; [exact H0|]. split; [exact H0|].
  rewrite H0. unfold render. split; [|split].
  - intros Hf. unfold render_header. by rewrite Hf.
  - intros f Hf Hs. unfold render_header, first_scaled.
    by rewrite Hf, bind_Ok, Hs.
  - intros s.
    destruct (render_header str_float str_int self) as [h|e];
      [rewrite bind_Ok|discriminate].
    unfold render_params, format_2f.
    destruct (L' self), (C' self), (R' self), (G' self); simpl;
      try discriminate. tauto.
Qed.
End RenderingOutcome.

(** X10.  Successive reads are separate: when two accesses of the
    same derived quantity follow one another in a well-formed state, the
    second returns the same value as the first, the array returned first
    still holds what it held, and the two arrays live at different
    addresses. *)
Theorem successive_reads_are_separate (s : state) (d : derived)
    (v1 v2 : val) (s1 s2 : state) :
  wf s ->
  read d s = (Ok v1, s1) -> read d s1 = (Ok v2, s2) ->
  deref (mem s2) v1 = deref (mem s2) v2 /\
  deref (mem s2) v1 = deref (mem s1) v1 /\
  forall p1 p2, v1 = VArr p1 -> v2 = VArr p2 -> p1 <> p2.
Proof.
  intros Hwf H1 H2.
  pose proof (read_agrees d s Hwf) as A1. rewrite H1 in A1.
  destruct A1 as [E1 (Hok1 & Hv1 & _)]. cbn [fst snd] in *.
  assert (Hwf1 : wf s1) by (by eapply wf_extends).
  pose proof (read_agrees d s1 Hwf1) as A2. rewrite H2 in A2.
  destruct A2 as [E2 (Hok2 & Hv2 & Hfree2)]. cbn [fst snd] in *.
  rewrite (snapshot_extends s s1 Hwf E1) in Hv2.
  assert (Hkeep : deref (mem s2) v1 = deref (mem s1) v1)
    by (apply deref_weaken; [done|exact (proj2 E2)]).
  split; [|split; [exact Hkeep|]].
  - rewrite Hkeep. congruence.
  - intros p1 p2 -> -> Heq. subst p2.
    destruct Hok1 as [l Hl]. rewrite (Hfree2 p1 eq_refl) in Hl. discriminate.
Qed.

(** X11.  Independence: assigning [G] or [C] does not change what [Z]
    returns, and assigning [R] or [L] does not change what [Y] returns. *)
Theorem impedance_ignores_shunt_parameters (s : state) (v : val) :
  wf s -> val_ok (mem s) v ->
  observe (setattr attr_G v;; get_Z) s = observe get_Z s /\
  observe (setattr attr_C v;; get_Z) s = observe get_Z s /\
  observe (setattr attr_R v;; get_Y) s = observe get_Y s /\
  observe (setattr attr_L v;; get_Y) s = observe get_Y s.
Proof.
  intros Hwf Hv.
  assert (H : forall a d,
    value_of d (with_attr a (deref (mem s) v) (snapshot s))
    = value_of d (snapshot s) ->
    observe (setattr a v;; read d) s = observe (read d) s).
  { intros a d Heq.
    destruct (setattr_spec a v s Hwf Hv) as (s' & Hs' & Hwf' & _ & Hsnap).
    rewrite (observe_read d s Hwf), <- Heq, <- Hsnap, <- (observe_read d s' Hwf').
    unfold observe. by rewrite bind_M, Hs'. }
  repeat split.
  - exact (H attr_G d_Z eq_refl).
  - exact (H attr_C d_Z eq_refl).
  - exact (H attr_R d_Y eq_refl).
  - exact (H attr_L d_Y eq_refl).
Qed.

(** X11 at the same state, [G] being bound to the stored array. *)
Lemma impedance_ignores_shunt_parameters_witness :
  observe (setattr attr_G (VArr 1%nat);; get_Z) state2 = observe get_Z state2.
Proof.
  apply (impedance_ignores_shunt_parameters state2 (VArr 1%nat)).
  - unfold wf, state2, heap2. simpl. repeat split; done.
  - unfold state2, heap2. simpl. done.
Defined.

(** X10 at the state whose resistance is a stored array of zeros. *)
Lemma successive_reads_are_separate_witness :
  exists v1 s1 v2 s2,
    read d_Z state2 = (Ok v1, s1) /\ read d_Z s1 = (Ok v2, s2) /\
    deref (mem s2) v1 = deref (mem s2) v2 /\
    forall p1 p2, v1 = VArr p1 -> v2 = VArr p2 -> p1 <> p2.
Proof.
  assert (Hwf : wf state2).
  { unfold wf, state2, heap2. simpl. repeat split; done. }
  destruct (read d_Z state2) as [[v1|e1] s1] eqn:E1.
  2:{ exfalso. pose proof (read_agrees d_Z state2 Hwf) as A.
      rewrite E1 in A. destruct A as [_ A]. cbn [fst] in A.
      pose proof (Z'_cases (snapshot state2) grid01 eq_refl) as HZ.
      simpl in HZ. destruct HZ as (zs & Hzs & _).
      cbn [value_of] in A. rewrite Hzs in A. discriminate. }
  assert (Hwf1 : wf s1).
  { pose proof (read_agrees d_Z state2 Hwf) as A. rewrite E1 in A.
    destruct A as [A _]. by eapply wf_extends. }
  destruct (read d_Z s1) as [[v2|e2] s2] eqn:E2.
  2:{ exfalso. pose proof (read_agrees d_Z state2 Hwf) as A0.
      rewrite E1 in A0. destruct A0 as [A0 _]. cbn [snd] in A0.
      pose proof (read_agrees d_Z s1 Hwf1) as A.
      rewrite E2 in A. destruct A as [_ A]. cbn [fst] in A.
      rewrite (snapshot_extends state2 s1 Hwf A0) in A.
      pose proof (Z'_cases (snapshot state2) grid01 eq_refl) as HZ.
      simpl in HZ. destruct HZ as (zs & Hzs & _).
      cbn [value_of] in A. rewrite Hzs in A. discriminate. }
  destruct (successive_reads_are_separate state2 d_Z v1 v2 s1 s2 Hwf E1 E2)
    as (H1 & _ & H3).
  exists v1, s1, v2, s2. auto.
Defined.

(** X2 at [w = 1] with [R = L = G = C = 1]. *)
Lemma physical_line_waves_witness :
  exists gs z0s gm zt,
    gamma (scalar_mode grid1 None 1 1 1 1) = Ok (Vec gs) /\
    z0_characteristic (scalar_mode grid1 None 1 1 1 1) = Ok (Vec z0s) /\
    gs !! 0%nat = Some gm /\ z0s !! 0%nat = Some zt /\
    0 < re gm /\ 0 < im gm /\ 0 < re zt /\
    Cmul gm zt = mkC 1 (1 * 1) /\ Cdiv gm zt = mkC 1 (1 * 1).
Proof.
  destruct (physical_line_waves (scalar_mode grid1 None 1 1 1 1) grid1
              0%nat 1 1 1 1 1)
    as (gs & z0s & gm & zt & H1 & H2 & H3 & H4 & _ & H6 & H7 & H8 & H9 & H10);
    try reflexivity; try lra.
  - repeat split; left; reflexivity.
  - exists gs, z0s, gm, zt.
    assert (0 < re gm) by (apply H7; left; lra). auto 10.
Defined.

(** X3 at the default line, [w = 1]. *)
Lemma lossless_line_waves_witness :
  exists gs z0s,
    gamma (scalar_mode grid1 None 0 280e-9 0 90e-12) = Ok (Vec gs) /\
    z0_characteristic (scalar_mode grid1 None 0 280e-9 0 90e-12)
    = Ok (Vec z0s) /\
    gs !! 0%nat = Some (mkC 0 (1 * sqrt (280e-9 * 90e-12))) /\
    z0s !! 0%nat = Some (RtoC (sqrt (280e-9 / 90e-12))).
Proof.
  apply (lossless_line_waves (scalar_mode grid1 None 0 280e-9 0 90e-12)
           grid1 0%nat 1 280e-9 90e-12); try reflexivity; try lra.
  repeat split; left; reflexivity.
Defined.

(** X4 at the default line on the grid [0, 1]. *)
Lemma dc_sample_waves_witness :
  exists zs ys gs z0s,
    Z' dc_mode = Ok (Vec zs) /\ Y' dc_mode = Ok (Vec ys) /\
    gamma dc_mode = Ok (Vec gs) /\ z0_characteristic dc_mode = Ok (Vec z0s) /\
    zs !! 0%nat = Some (mkC 0 1e-12) /\ ys !! 0%nat = Some (mkC 0 1e-12) /\
    gs !! 0%nat = Some (mkC 0 1e-12) /\ z0s !! 0%nat = Some (mkC 1 0).
Proof.
  apply (dc_sample_waves dc_mode grid01 0%nat (RtoC 280e-9) (RtoC 90e-12));
    try reflexivity.
  repeat split; left; reflexivity.
Defined.

(** X5 at the line of three samples whose inductance is an array. *)
Lemma sampled_parameters_roundtrip_witness :
  exists g1 z1 M2 Ls,
    gamma vector_L_mode = Ok g1 /\ z0_characteristic vector_L_mode = Ok z1 /\
    from_media (mkMedia (Some grid123) g1 z1 None) = Ok M2 /\
    L' M2 = Vec Ls /\
    Ls !! 2%nat = Some (RtoC 280e-9).
Proof.
  destruct (sampled_parameters_roundtrip vector_L_mode grid123 None eq_refl)
    as (g1 & z1 & M2 & Rs & Ls & Gs & Cs & H1 & H2 & H3 & _ & HL & _ & _ & H).
  - split; [left; reflexivity|]. split; [right; reflexivity|].
    split; left; reflexivity.
  - repeat constructor; simpl; lra.
  - intros k c _ [= <-]. split; simpl; lra.
  - intros k c Hk Hc. simpl in Hc.
    destruct k as [|[|[|k]]]; simpl in Hc; try discriminate;
      injection Hc as <-; split; simpl; lra.
  - intros k c _ [= <-]. split; simpl; lra.
  - intros k c _ [= <-]. split; simpl; lra.
  - exists g1, z1, M2, Ls. repeat (split; [assumption|]).
    destruct (H 2%nat) as (_ & HL2 & _); [simpl; lia|]. exact HL2.
Defined.

(** X6 at one sample: [w = 1], [gamma = 1 + j], [z0 = 2 + j]. *)
Lemma inverse_then_impedance_witness :
  exists m,
    from_media (mkMedia (Some grid1) (Vec [mkC 1 1]) (Vec [mkC 2 1]) None)
    = Ok m /\
    Z' m = Ok (Vec [nudge (Cmul (mkC 1 1) (mkC 2 1))]) /\
    Y' m = Ok (Vec [nudge (Cdiv (mkC 1 1) (mkC 2 1))]).
Proof.
  apply (inverse_then_impedance grid1 None [mkC 1 1] [mkC 2 1]).
  - reflexivity.
  - reflexivity.
  - repeat constructor. simpl. lra.
  - repeat constructor. intros [=]. lra.
Defined.

(** X9 at a mode constructed without a grid. *)
Lemma str_outcome_witness :
  __str__ any_text any_text any_text gridless_mode = Raise AttributeError.
Proof.
  destruct (str_outcome any_text any_text any_text gridless_mode)
    as (_ & _ & H & _).
  apply H. reflexivity.
Defined.
